(** * Terminal escape-sequence parser (src/terminal/Parser.h, Parser.cpp)

    A shallow embedding of [terminal::Parser]: the character classifier, the
    action emitter, the switch dispatcher [handleViaSwitch] with its helper
    [transitionTo], the table dispatcher [handleViaTables] and the fragment
    loop [parse] / [parseFragment].

    Code points ([char32_t], [wchar_t]) are integers in [Z]; input bytes are
    [Byte.byte].  The member functions mutate the parser object and call the
    two callbacks, so they are written in a small state-and-error monad over a
    [Machine]: the fields of the class, the fragment the cursor points into,
    and the record of every call made to the action handler and the loggers.
    An array subscript past the end of a [std::array] (and a dereference of a
    cursor outside the fragment) has no defined behaviour in C++; the monad
    has a separate outcome for it. *)

From Stdlib Require Import ZArith List Bool Lia.
From Stdlib.Strings Require Import Byte String.
Import ListNotations.
Local Open Scope Z_scope.
Local Open Scope list_scope.

(** ** Enumerations of Parser.h *)

(** [enum ActionClass] *)
Inductive ActionClass : Set :=
| Enter
| Event
| Leave
| Transition.

(** [enum class Action : uint8_t] *)
Module Action.
Inductive t : Set :=
| Undefined
| Ignore
| Print
| Execute
| Clear
| Collect
| Param
| ESC_Dispatch
| CSI_Dispatch
| Hook
| Put
| Unhook
| OSC_Start
| OSC_Put
| OSC_End.

Definition eq_dec (x y : t) : {x = y} + {x <> y}.
Proof. decide equality. Defined.

Definition eqb (x y : t) : bool := if eq_dec x y then true else false.
End Action.

(** [enum class State : uint8_t] *)
Module State.
Inductive t : Set :=
| Undefined
| Ground
| Escape
| EscapeIntermediate
| CSI_Entry
| CSI_Param
| CSI_Intermediate
| CSI_Ignore
| DCS_Entry
| DCS_Param
| DCS_Intermediate
| DCS_PassThrough
| DCS_Ignore
| OSC_String
| SOS_PM_APC_String.

Definition eq_dec (x y : t) : {x = y} + {x <> y}.
Proof. decide equality. Defined.

Definition eqb (x y : t) : bool := if eq_dec x y then true else false.

(** [static_cast<size_t>(state)], the row of a state in the tables. *)
Definition index (s : t) : Z :=
  match s with
  | Undefined => 0 | Ground => 1 | Escape => 2 | EscapeIntermediate => 3
  | CSI_Entry => 4 | CSI_Param => 5 | CSI_Intermediate => 6 | CSI_Ignore => 7
  | DCS_Entry => 8 | DCS_Param => 9 | DCS_Intermediate => 10
  | DCS_PassThrough => 11 | DCS_Ignore => 12 | OSC_String => 13
  | SOS_PM_APC_String => 14
  end.

(** [std::numeric_limits<State>::size()] *)
Definition size : Z := 15.
End State.

(** One call of the action handler: [actionHandler_(actionClass, action, currentChar())]. *)
Definition Emission : Set := (ActionClass * Action.t * Z)%type.

(** ** The classifier (Parser.cpp, lines 18-43) *)

Record Range : Set := mkRange { first : Z; last : Z }.

Definition includes (range : Range) (value : Z) : bool :=
  (first range <=? value) && (value <=? last range).

Definition isExecuteChar (value : Z) : bool :=
  includes (mkRange 0x00 0x17) value || (value =? 0x19) || includes (mkRange 0x1C 0x1F) value.

Definition isParamChar (value : Z) : bool :=
  includes (mkRange 0x30 0x39) value || (value =? 0x3B).

Definition isC1 (value : Z) : bool :=
  includes (mkRange 0x80 0x9F) value.

Definition isPrintChar (value : Z) : bool :=
  includes (mkRange 0x20 0x7F) value || ((0x7F <? value) && negb (isC1 value)).

(** The classifier takes a [wchar_t] and is called with [currentChar()], a
    [char32_t]: the argument is converted at the call.  [wchar_t] is the
    32-bit signed type of the platforms the terminal is built for, so a value
    from 0x80000000 upwards arrives as a negative number. *)
Definition to_wchar_t (c : Z) : Z :=
  let u := c mod 2 ^ 32 in
  if u <? 2 ^ 31 then u else u - 2 ^ 32.

(** The same conversion at the call of [isprint], which takes an [int]. *)
Definition to_int (c : Z) : Z :=
  let u := c mod 2 ^ 32 in
  if u <? 2 ^ 31 then u else u - 2 ^ 32.

(** [isprint] of <cctype> in the "C" locale.  Its behaviour is defined only
    for [EOF] (-1) and for the values of an [unsigned char]; [None] stands for
    a call outside them. *)
Definition isprint (ch : Z) : option bool :=
  if ch =? -1 then Some false
  else if (0 <=? ch) && (ch <=? 255) then Some (includes (mkRange 0x20 0x7E) ch)
  else None.

(** ** Collaborators that Parser.cpp only uses *)

(** The three outcomes of [utf8::Decoder::decode], visited in [Parser::parse]. *)
Module utf8.
Inductive Result : Set :=
| Incomplete
| Invalid (replacementCharacter : Z)
| Success (value : Z).
End utf8.

(** What the parser hands to [logger_] and to [traceLog_]. *)
Inductive LogEvent : Set :=
| InvalidUTF8
| UnknownAction (state : State.t) (input : Z)
| InvalidCharacter (state : State.t) (character : Z) (printable : bool).

Record TraceEvent : Set := mkTrace {
  trace_state : State.t;
  trace_message : string;
  trace_byte : byte;
  trace_character : option Z
}.

(** [struct ParserTable] as [handleViaTables] reads it: two arrays indexed by
    state and code point, two arrays indexed by state.  [width] is the length
    of the inner arrays; a subscript is defined only below it. *)
Record ParserTable : Type := mkParserTable {
  width : Z;
  transitions : State.t -> Z -> State.t;
  events : State.t -> Z -> Action.t;
  entryEvents : State.t -> Action.t;
  exitEvents : State.t -> Action.t
}.

(** [array[c]]: the element when [c] is a valid subscript. *)
Definition subscript {A : Type} (tbl : ParserTable) (row : Z -> A) (c : Z) : option A :=
  if (0 <=? c) && (c <? width tbl) then Some (row c) else None.

(** ** The parser object and its member functions *)

Section Engine.

(** [utf8::Decoder] (terminal/UTF8.h) is a black box for the parser: a state
    and a [decode] member that consumes one byte. *)
Context {DecoderState : Type}.
Variable decode : DecoderState -> byte -> DecoderState * utf8.Result.

(** [ParserTable::get()] (terminal/ParserTables.h), the constant that
    [handleViaTables] reads. *)
Variable table : ParserTable.

(** The data members of [class Parser] (Parser.h, lines 376-386, and
    [traceLog_], which [logTrace] uses), followed by what lies outside the
    object: the fragment that [begin_] and [end_] point into (as offsets)
    and the calls received so far by the three callbacks. *)
Record Machine : Type := mkMachine {
  state_ : State.t;
  utf8Decoder_ : DecoderState;
  currentChar_ : Z;
  begin_ : nat;
  end_ : nat;
  actionHandler_ : bool;
  logger_ : bool;
  traceLog_ : bool;
  fragment : list byte;
  emitted : list Emission;
  logged : list LogEvent;
  traced : list TraceEvent
}.

Definition set_state_ (s : State.t) (m : Machine) : Machine :=
  mkMachine s (utf8Decoder_ m) (currentChar_ m) (begin_ m) (end_ m)
    (actionHandler_ m) (logger_ m) (traceLog_ m) (fragment m) (emitted m) (logged m) (traced m).

Definition set_utf8Decoder_ (d : DecoderState) (m : Machine) : Machine :=
  mkMachine (state_ m) d (currentChar_ m) (begin_ m) (end_ m)
    (actionHandler_ m) (logger_ m) (traceLog_ m) (fragment m) (emitted m) (logged m) (traced m).

Definition set_currentChar_ (c : Z) (m : Machine) : Machine :=
  mkMachine (state_ m) (utf8Decoder_ m) c (begin_ m) (end_ m)
    (actionHandler_ m) (logger_ m) (traceLog_ m) (fragment m) (emitted m) (logged m) (traced m).

Definition set_begin_ (b : nat) (m : Machine) : Machine :=
  mkMachine (state_ m) (utf8Decoder_ m) (currentChar_ m) b (end_ m)
    (actionHandler_ m) (logger_ m) (traceLog_ m) (fragment m) (emitted m) (logged m) (traced m).

Definition set_span (s : list byte) (b e : nat) (m : Machine) : Machine :=
  mkMachine (state_ m) (utf8Decoder_ m) (currentChar_ m) b e
    (actionHandler_ m) (logger_ m) (traceLog_ m) s (emitted m) (logged m) (traced m).

Definition set_actionHandler_ (h : bool) (m : Machine) : Machine :=
  mkMachine (state_ m) (utf8Decoder_ m) (currentChar_ m) (begin_ m) (end_ m)
    h (logger_ m) (traceLog_ m) (fragment m) (emitted m) (logged m) (traced m).

Definition set_logger_ (l : bool) (m : Machine) : Machine :=
  mkMachine (state_ m) (utf8Decoder_ m) (currentChar_ m) (begin_ m) (end_ m)
    (actionHandler_ m) l (traceLog_ m) (fragment m) (emitted m) (logged m) (traced m).

Definition set_emitted (es : list Emission) (m : Machine) : Machine :=
  mkMachine (state_ m) (utf8Decoder_ m) (currentChar_ m) (begin_ m) (end_ m)
    (actionHandler_ m) (logger_ m) (traceLog_ m) (fragment m) es (logged m) (traced m).

Definition set_logged (ls : list LogEvent) (m : Machine) : Machine :=
  mkMachine (state_ m) (utf8Decoder_ m) (currentChar_ m) (begin_ m) (end_ m)
    (actionHandler_ m) (logger_ m) (traceLog_ m) (fragment m) (emitted m) ls (traced m).

Definition set_traced (ts : list TraceEvent) (m : Machine) : Machine :=
  mkMachine (state_ m) (utf8Decoder_ m) (currentChar_ m) (begin_ m) (end_ m)
    (actionHandler_ m) (logger_ m) (traceLog_ m) (fragment m) (emitted m) (logged m) ts.

(** *** The monad of member functions *)

Inductive Outcome (A : Type) : Type :=
| Returns (a : A) (m : Machine)
| UndefinedBehaviour
| OutOfFuel.

Arguments Returns {A} a m.
Arguments UndefinedBehaviour {A}.
Arguments OutOfFuel {A}.

Definition M (A : Type) : Type := Machine -> Outcome A.

Definition ret {A : Type} (a : A) : M A := fun m => Returns a m.

Definition bind {A B : Type} (x : M A) (k : A -> M B) : M B :=
  fun m =>
    match x m with
    | Returns a m' => k a m'
    | UndefinedBehaviour => UndefinedBehaviour
    | OutOfFuel => OutOfFuel
    end.

Definition modify (f : Machine -> Machine) : M unit := fun m => Returns tt (f m).

Definition undefined {A : Type} : M A := fun _ => UndefinedBehaviour.

Notation "x <- c1 ;; c2" := (bind c1 (fun x => c2))
  (at level 61, c1 at next level, right associativity).
Notation "c1 ;; c2" := (bind c1 (fun _ => c2))
  (at level 61, right associativity).

(** *** Inline accessors (Parser.h, lines 371-374) *)

Definition dataAvailable (m : Machine) : bool := negb (Nat.eqb (begin_ m) (end_ m)).

Definition advance : M unit := modify (fun m => set_begin_ (S (begin_ m)) m).

Definition currentByte : M byte :=
  fun m => match nth_error (fragment m) (begin_ m) with
           | Some b => Returns b m
           | None => UndefinedBehaviour
           end.

Definition currentChar (m : Machine) : Z := currentChar_ m.

(** *** Logging (Parser.h, lines 354-359; Parser.cpp, lines 80-100) *)

Definition log (ev : LogEvent) : M unit :=
  fun m => if logger_ m then Returns tt (set_logged (logged m ++ [ev]) m) else Returns tt m.

Definition logInvalidInput : M unit :=
fun m =>
  match isprint (to_int (currentChar m)) with
  | None => UndefinedBehaviour
  | Some true => log (InvalidCharacter (state_ m) (currentChar m) true) m
  | Some false => log (InvalidCharacter (state_ m) (currentChar m) false) m
  end.

Definition logTrace (message : string) : M unit :=
  fun m =>
    if traceLog_ m then
      (b <- currentByte ;;
       modify (fun m' =>
         set_traced (traced m' ++
           [mkTrace (state_ m') message b
              (if currentChar m' =? 0 then None else Some (currentChar m'))]) m')) m
    else Returns tt m.

(** *** [Parser::invokeAction] (Parser.cpp, lines 347-355) *)

Definition invokeAction (actionClass : ActionClass) (action : Action.t) : M unit :=
  fun m =>
    if actionHandler_ m
    then Returns tt (set_emitted (emitted m ++ [(actionClass, action, currentChar m)]) m)
    else Returns tt m.

(** *** [Parser::transitionTo] (Parser.cpp, lines 357-379); the default
    argument [Action::Ignore] is written out at the call sites. *)

Definition transitionTo (targetState : State.t) (action : Action.t) : M unit :=
  invokeAction Transition action ;;
  modify (set_state_ targetState) ;;
  match targetState with
  | State.Escape | State.CSI_Entry | State.DCS_Entry => invokeAction Enter Action.Clear
  | State.DCS_PassThrough => invokeAction Enter Action.Hook
  | State.OSC_String => invokeAction Enter Action.OSC_Start
  | _ => ret tt
  end.

(** *** [Parser::handleViaSwitch] (Parser.cpp, lines 125-345) *)

Definition handleViaSwitch : M unit :=
  logTrace "handle character" ;;
  fun m =>
    let c := currentChar m in
    let w := to_wchar_t c in
    (if (c =? 0x18) || (c =? 0x1A) || (c =? 0x9C) || includes (mkRange 0x80 0x8F) w
        || includes (mkRange 0x91 0x97) w
     then transitionTo State.Ground Action.Ignore
     else if c =? 0x1B
     then transitionTo State.Escape Action.Ignore
     else if c =? 0x90
     then transitionTo State.DCS_Entry Action.Ignore
     else if (c =? 0x98) || (c =? 0x9E) || (c =? 0x9F)
     then transitionTo State.SOS_PM_APC_String Action.Ignore
     else
       match state_ m with
       | State.Undefined => ret tt

       | State.Ground =>
           if isExecuteChar w then invokeAction Event Action.Execute
           else if isPrintChar w then invokeAction Event Action.Print
           else logInvalidInput

       | State.Escape =>
           if isExecuteChar w then invokeAction Event Action.Execute
           else if c =? 0x7F then invokeAction Event Action.Ignore
           else if (c =? 0x58) || (c =? 0x5E) || (c =? 0x5F)
           then transitionTo State.SOS_PM_APC_String Action.Ignore
           else if c =? 0x50 then transitionTo State.DCS_Entry Action.Ignore
           else if c =? 0x5D then transitionTo State.OSC_String Action.Ignore
           else if c =? 0x5B then transitionTo State.CSI_Entry Action.Ignore
           else if includes (mkRange 0x30 0x4F) w || includes (mkRange 0x51 0x57) w
                   || (c =? 0x59) || (c =? 0x5A) || (c =? 0x5C)
                   || includes (mkRange 0x60 0x7E) w
           then transitionTo State.Ground Action.ESC_Dispatch
           else if includes (mkRange 0x20 0x2F) w
           then transitionTo State.EscapeIntermediate Action.Collect
           else logInvalidInput

       | State.EscapeIntermediate =>
           if isExecuteChar w then invokeAction Event Action.Execute
           else if includes (mkRange 0x20 0x2F) w then invokeAction Event Action.Collect
           else if c =? 0x7F then invokeAction Event Action.Ignore
           else if includes (mkRange 0x30 0x7E) w
           then transitionTo State.Ground Action.ESC_Dispatch
           else logInvalidInput

       | State.CSI_Entry =>
           if isExecuteChar w then invokeAction Event Action.Execute
           else if c =? 0x7F then invokeAction Event Action.Ignore
           else if includes (mkRange 0x40 0x7E) w
           then transitionTo State.Ground Action.CSI_Dispatch
           else if includes (mkRange 0x20 0x2F) w
           then transitionTo State.CSI_Intermediate Action.Collect
           else if c =? 0x3A then invokeAction Event Action.Ignore
           else if isParamChar w then invokeAction Event Action.Param
           else if includes (mkRange 0x3C 0x3F) w then invokeAction Event Action.Collect
           else logInvalidInput

       | State.CSI_Param =>
           if isExecuteChar w then invokeAction Event Action.Execute
           else if isParamChar w then invokeAction Event Action.Param
           else if c =? 0x7F then invokeAction Event Action.Ignore
           else if (c =? 0x3A) || includes (mkRange 0x3C 0x3F) w
           then transitionTo State.DCS_Ignore Action.Ignore
           else if includes (mkRange 0x20 0x2F) w
           then transitionTo State.DCS_Intermediate Action.Ignore
           else if includes (mkRange 0x40 0x7E) w
           then transitionTo State.DCS_PassThrough Action.Ignore
           else logInvalidInput

       | State.CSI_Intermediate =>
           if isExecuteChar w then invokeAction Event Action.Execute
           else if includes (mkRange 0x20 0x2F) w then invokeAction Event Action.Collect
           else if c =? 0x7F then invokeAction Event Action.Ignore
           else if includes (mkRange 0x30 0x3F) w
           then transitionTo State.CSI_Ignore Action.Ignore
           else if includes (mkRange 0x40 0x7E) w
           then transitionTo State.Ground Action.CSI_Dispatch
           else logInvalidInput

       | State.CSI_Ignore =>
           if isExecuteChar w then invokeAction Event Action.Execute
           else if includes (mkRange 0x20 0x3F) w || (c =? 0x7F)
           then invokeAction Event Action.Ignore
           else if includes (mkRange 0x40 0x7E) w
           then transitionTo State.Ground Action.Ignore
           else logInvalidInput

       | State.DCS_Entry =>
           if isExecuteChar w then invokeAction Event Action.Execute
           else if c =? 0x7F then invokeAction Event Action.Ignore
           else if includes (mkRange 0x20 0x2F) w
           then transitionTo State.DCS_Intermediate Action.Collect
           else if c =? 0x3A then transitionTo State.DCS_Ignore Action.Ignore
           else if isParamChar w then transitionTo State.DCS_Param Action.Param
           else if includes (mkRange 0x3C 0x3F) w
           then transitionTo State.DCS_Param Action.Collect
           else if includes (mkRange 0x40 0x7E) w
           then transitionTo State.DCS_PassThrough Action.Ignore
           else logInvalidInput

       | State.DCS_Param =>
           if isExecuteChar w then invokeAction Event Action.Execute
           else if isParamChar w then invokeAction Event Action.Param
           else if c =? 0x7F then invokeAction Event Action.Ignore
           else if (c =? 0x3A) || includes (mkRange 0x3C 0x3F) w
           then transitionTo State.DCS_Ignore Action.Ignore
           else if includes (mkRange 0x20 0x2F) w
           then transitionTo State.DCS_Intermediate Action.Ignore
           else if includes (mkRange 0x40 0x7E) w
           then transitionTo State.DCS_PassThrough Action.Ignore
           else logInvalidInput

       | State.DCS_Intermediate =>
           if isExecuteChar w then invokeAction Event Action.Execute
           else if includes (mkRange 0x20 0x2F) w then invokeAction Event Action.Collect
           else if c =? 0x7F then invokeAction Event Action.Ignore
           else if includes (mkRange 0x40 0x7E) w
           then transitionTo State.DCS_PassThrough Action.Ignore
           else logInvalidInput

       | State.DCS_PassThrough =>
           if isExecuteChar w || includes (mkRange 0x20 0x7E) w
           then invokeAction Event Action.Put
           else if c =? 0x7F then invokeAction Event Action.Ignore
           else if c =? 0x9C
           then (invokeAction Event Action.Unhook ;;
                 transitionTo State.Ground Action.Ignore)
           else logInvalidInput

       | State.DCS_Ignore =>
           if isExecuteChar w || includes (mkRange 0x20 0x7F) w
           then invokeAction Event Action.Ignore
           else if c =? 0x9C then transitionTo State.Ground Action.Ignore
           else logInvalidInput

       | State.OSC_String =>
           if isExecuteChar w then invokeAction Event Action.Ignore
           else if includes (mkRange 0x20 0x7F) w then invokeAction Event Action.OSC_Put
           else if c =? 0x9C
           then (invokeAction Leave Action.OSC_End ;;
                 transitionTo State.Ground Action.Ignore)
           else logInvalidInput

       | State.SOS_PM_APC_String =>
           if isExecuteChar w then invokeAction Event Action.Ignore
           else if c =? 0x9C then transitionTo State.Ground Action.Ignore
           else logInvalidInput
       end) m.

(** *** [Parser::handleViaTables] (Parser.cpp, lines 102-123) *)

Definition handleViaTables : M unit :=
  fun m =>
    let s := state_ m in
    if State.eqb (state_ m) State.Ground && isPrintChar (to_wchar_t (currentChar m))
    then invokeAction Event Action.Print m
    else
      match subscript table (transitions table s) (currentChar m) with
      | None => UndefinedBehaviour
      | Some t =>
          if negb (State.eqb t State.Undefined)
          then
            (invokeAction Leave (exitEvents table s) ;;
             (fun m' =>
                match subscript table (events table s) (currentChar m') with
                | None => UndefinedBehaviour
                | Some a => invokeAction Transition a m'
                end) ;;
             modify (set_state_ t) ;;
             invokeAction Enter (entryEvents table t)) m
          else
            match subscript table (events table s) (currentChar m) with
            | None => UndefinedBehaviour
            | Some a =>
                if negb (Action.eqb a Action.Undefined)
                then invokeAction Event a m
                else log (UnknownAction (state_ m) (currentChar m)) m
            end
      end.

(** *** [Parser::parse] (Parser.cpp, lines 56-78) *)

(** The overloaded visitor applied to the result of [decode]. *)
Definition visit (r : utf8.Result) : M unit :=
  match r with
  | utf8.Incomplete => ret tt
  | utf8.Invalid replacementCharacter =>
      log InvalidUTF8 ;;
      modify (set_currentChar_ replacementCharacter) ;;
      handleViaTables
  | utf8.Success value =>
      modify (set_currentChar_ value) ;;
      handleViaTables
  end.

(** [utf8Decoder_.decode(b)]: the decoder moves on and reports. *)
Definition decodeByte (b : byte) : M utf8.Result :=
  fun m =>
    let (d, r) := decode (utf8Decoder_ m) b in
    Returns r (set_utf8Decoder_ d m).

(** One turn of the [while] loop. *)
Definition iteration : M unit :=
  modify (set_currentChar_ 0) ;;
  b <- currentByte ;;
  r <- decodeByte b ;;
  visit r ;;
  advance.

(** The [while (dataAvailable())] loop, unrolled at most [fuel] times. *)
Fixpoint parse_loop (fuel : nat) : M unit :=
  fun m =>
    if dataAvailable m then
      match fuel with
      | O => OutOfFuel
      | S fuel' => (iteration ;; parse_loop fuel') m
      end
    else Returns tt m.

(** [parse()]: the loop moves [begin_] up to [end_] one byte at a time, so
    [end_ - begin_] turns are all it can take (see [parse_loop_enough]). *)
Definition parse : M unit :=
  fun m => parse_loop (end_ m - begin_ m) m.

(** *** [Parser::parseFragment] (Parser.cpp, lines 45-54), on the bytes of
    the range [begin, end). *)
Definition parseFragment (s : list byte) : M unit :=
  modify (set_span s O (List.length s)) ;;
  parse.

(** The lambda of [parse] for a decoded code point, with the switch
    dispatcher in the place of the table dispatcher: what [handleViaSwitch]
    does when it is handed the code point [c]. *)
Definition dispatchViaSwitch (c : Z) : M unit :=
  modify (set_currentChar_ c) ;;
  handleViaSwitch.

End Engine.

Arguments Returns {DecoderState A} a m.
Arguments UndefinedBehaviour {DecoderState A}.
Arguments OutOfFuel {DecoderState A}.

Notation "x <- c1 ;; c2" := (bind c1 (fun x => c2))
  (at level 61, c1 at next level, right associativity).
Notation "c1 ;; c2" := (bind c1 (fun _ => c2))
  (at level 61, right associativity).

(** [Parser(ActionHandler, Logger = {})] (Parser.h, lines 175-178) with the
    member initialisers of lines 376-383: the parser starts in [Ground], with
    no current character and no fragment.  [handler] and [logger] tell whether
    the two [std::function] arguments hold a target. *)
Definition construct {DecoderState : Type} (handler logger : bool) (decoder : DecoderState)
  : Machine :=
  mkMachine State.Ground decoder 0 O O handler logger false [] [] [] [].

(** ** The transition table *)

(** Modelled from the spec: the "anywhere" rules of section 4.4, which the
    table encodes into every row (terminal/ParserTables.h is not among the
    sources). *)
Definition anywhere (c : Z) : option State.t :=
  if (c =? 0x18) || (c =? 0x1A) || (c =? 0x9C) || includes (mkRange 0x80 0x8F) c
     || includes (mkRange 0x91 0x97) c
  then Some State.Ground
  else if c =? 0x1B then Some State.Escape
  else if c =? 0x90 then Some State.DCS_Entry
  else if (c =? 0x98) || (c =? 0x9E) || (c =? 0x9F) then Some State.SOS_PM_APC_String
  else None.

(** Modelled from the spec: the per-state rules of section 4.5, one row of the
    spec's table per branch, as a pair (next state, action); a dash in the
    "Next state" column is [State.Undefined], a dash in the "Action" column of
    a transition is [Action.Ignore] (scenario S2 shows [Transition(Ignore)]),
    and an input without a rule is [(State.Undefined, Action.Undefined)]. *)
Definition rule (s : State.t) (c : Z) : State.t * Action.t :=
  let stay (a : Action.t) := (State.Undefined, a) in
  let none := (State.Undefined, Action.Undefined) in
  match s with
  | State.Undefined => none
  | State.Ground =>
      if isExecuteChar c then stay Action.Execute
      else if isPrintChar c then stay Action.Print
      else none
  | State.Escape =>
      if isExecuteChar c then stay Action.Execute
      else if c =? 0x7F then stay Action.Ignore
      else if (c =? 0x58) || (c =? 0x5E) || (c =? 0x5F)
      then (State.SOS_PM_APC_String, Action.Ignore)
      else if c =? 0x50 then (State.DCS_Entry, Action.Ignore)
      else if c =? 0x5D then (State.OSC_String, Action.Ignore)
      else if c =? 0x5B then (State.CSI_Entry, Action.Ignore)
      else if includes (mkRange 0x30 0x4F) c || includes (mkRange 0x51 0x57) c
              || (c =? 0x59) || (c =? 0x5A) || (c =? 0x5C) || includes (mkRange 0x60 0x7E) c
      then (State.Ground, Action.ESC_Dispatch)
      else if includes (mkRange 0x20 0x2F) c then (State.EscapeIntermediate, Action.Collect)
      else none
  | State.EscapeIntermediate =>
      if isExecuteChar c then stay Action.Execute
      else if includes (mkRange 0x20 0x2F) c then stay Action.Collect
      else if c =? 0x7F then stay Action.Ignore
      else if includes (mkRange 0x30 0x7E) c then (State.Ground, Action.ESC_Dispatch)
      else none
  | State.CSI_Entry =>
      if isExecuteChar c then stay Action.Execute
      else if c =? 0x7F then stay Action.Ignore
      else if includes (mkRange 0x40 0x7E) c then (State.Ground, Action.CSI_Dispatch)
      else if includes (mkRange 0x20 0x2F) c then (State.CSI_Intermediate, Action.Collect)
      else if c =? 0x3A then stay Action.Ignore
      else if isParamChar c then (State.CSI_Param, Action.Param)
      else if includes (mkRange 0x3C 0x3F) c then (State.CSI_Param, Action.Collect)
      else none
  | State.CSI_Param =>
      if isExecuteChar c then stay Action.Execute
      else if isParamChar c then stay Action.Param
      else if c =? 0x7F then stay Action.Ignore
      else if (c =? 0x3A) || includes (mkRange 0x3C 0x3F) c
      then (State.CSI_Ignore, Action.Ignore)
      else if includes (mkRange 0x20 0x2F) c then (State.CSI_Intermediate, Action.Collect)
      else if includes (mkRange 0x40 0x7E) c then (State.Ground, Action.CSI_Dispatch)
      else none
  | State.CSI_Intermediate =>
      if isExecuteChar c then stay Action.Execute
      else if includes (mkRange 0x20 0x2F) c then stay Action.Collect
      else if c =? 0x7F then stay Action.Ignore
      else if includes (mkRange 0x30 0x3F) c then (State.CSI_Ignore, Action.Ignore)
      else if includes (mkRange 0x40 0x7E) c then (State.Ground, Action.CSI_Dispatch)
      else none
  | State.CSI_Ignore =>
      if isExecuteChar c then stay Action.Execute
      else if includes (mkRange 0x20 0x3F) c || (c =? 0x7F) then stay Action.Ignore
      else if includes (mkRange 0x40 0x7E) c then (State.Ground, Action.Ignore)
      else none
  | State.DCS_Entry =>
      if isExecuteChar c then stay Action.Ignore
      else if c =? 0x7F then stay Action.Ignore
      else if includes (mkRange 0x20 0x2F) c then (State.DCS_Intermediate, Action.Collect)
      else if c =? 0x3A then (State.DCS_Ignore, Action.Ignore)
      else if isParamChar c then (State.DCS_Param, Action.Param)
      else if includes (mkRange 0x3C 0x3F) c then (State.DCS_Param, Action.Collect)
      else if includes (mkRange 0x40 0x7E) c then (State.DCS_PassThrough, Action.Ignore)
      else none
  | State.DCS_Param =>
      (* "same structure as CSI_Param but routes to DCS_* states" *)
      if isExecuteChar c then stay Action.Execute
      else if isParamChar c then stay Action.Param
      else if c =? 0x7F then stay Action.Ignore
      else if (c =? 0x3A) || includes (mkRange 0x3C 0x3F) c
      then (State.DCS_Ignore, Action.Ignore)
      else if includes (mkRange 0x20 0x2F) c then (State.DCS_Intermediate, Action.Collect)
      else if includes (mkRange 0x40 0x7E) c then (State.DCS_PassThrough, Action.Ignore)
      else none
  | State.DCS_Intermediate =>
      (* "same as CSI_Intermediate but routes to DCS_PassThrough on 0x40-0x7E":
         the spec states no other difference *)
      if isExecuteChar c then stay Action.Execute
      else if includes (mkRange 0x20 0x2F) c then stay Action.Collect
      else if c =? 0x7F then stay Action.Ignore
      else if includes (mkRange 0x30 0x3F) c then (State.CSI_Ignore, Action.Ignore)
      else if includes (mkRange 0x40 0x7E) c then (State.DCS_PassThrough, Action.Ignore)
      else none
  | State.DCS_PassThrough =>
      if isExecuteChar c || includes (mkRange 0x20 0x7E) c then stay Action.Put
      else if c =? 0x7F then stay Action.Ignore
      else none
  | State.DCS_Ignore =>
      if isExecuteChar c || includes (mkRange 0x20 0x7F) c then stay Action.Ignore
      else none
  | State.OSC_String =>
      if isExecuteChar c then stay Action.Ignore
      else if includes (mkRange 0x20 0x7F) c then stay Action.OSC_Put
      else none
  | State.SOS_PM_APC_String =>
      if isExecuteChar c then stay Action.Ignore
      else none
  end.

(** Modelled from the spec: the per-state entry actions of section 4.5
    ([entry_events] of section 3; terminal/ParserTables.h is not among the
    sources).  A state without an entry action has [Ignore] (scenario S2:
    [Enter(Ignore)@Ground]). *)
Definition entry_events (s : State.t) : Action.t :=
  match s with
  | State.Undefined => Action.Undefined
  | State.Escape | State.CSI_Entry | State.DCS_Entry => Action.Clear
  | State.DCS_PassThrough => Action.Hook
  | State.OSC_String => Action.OSC_Start
  | _ => Action.Ignore
  end.

(** Modelled from the spec: the per-state exit actions of section 4.5
    ([exit_events] of section 3; terminal/ParserTables.h is not among the
    sources).  A state without an exit action has [Ignore] (scenario S2:
    [Leave(Ignore)@Ground]). *)
Definition exit_events (s : State.t) : Action.t :=
  match s with
  | State.Undefined => Action.Undefined
  | State.DCS_PassThrough => Action.Unhook
  | State.OSC_String => Action.OSC_End
  | _ => Action.Ignore
  end.

(** Modelled from the spec: [ParserTable::get()] (terminal/ParserTables.h is
    not among the sources).  Section 3 gives the four arrays and their
    indexable code points, [0x00, 0xA0); the "anywhere" rules come before the
    rules of the state (section 4.4); the row of [State::Undefined] is never
    used and holds no rule. *)
Definition ParserTable_get : ParserTable :=
  {| width := 0xA0;
     transitions := fun s c =>
       match s with
       | State.Undefined => State.Undefined
       | _ => match anywhere c with
              | Some t => t
              | None => fst (rule s c)
              end
       end;
     events := fun s c =>
       match s with
       | State.Undefined => Action.Undefined
       | _ => match anywhere c with
              | Some _ => Action.Ignore
              | None => snd (rule s c)
              end
       end;
     entryEvents := entry_events;
     exitEvents := exit_events |}.

(** ** A decoder to run the parser on concrete input *)

(** The parser sees of [utf8::Decoder] only the outcome it reports for each
    byte.  [scripted] is the decoder that reports a prescribed list of
    outcomes, one per call, and [Incomplete] once the list is used up; with
    the outcomes that UTF-8 fixes for a byte sequence it stands for the real
    decoder on that sequence. *)
Definition scripted (script : list utf8.Result) (b : byte)
  : list utf8.Result * utf8.Result :=
  match script with
  | [] => ([], utf8.Incomplete)
  | r :: rest => (rest, r)
  end.

(** What is left of a run once the fragment and the cursor are set aside. *)
Definition outcome_map {DecoderState A : Type} (f : @Machine DecoderState -> @Machine DecoderState)
  (o : Outcome A) : Outcome A :=
  match o with
  | Returns a m => Returns a (f m)
  | UndefinedBehaviour => UndefinedBehaviour
  | OutOfFuel => OutOfFuel
  end.

(** Forgetting the fragment and the cursor ([begin_], [end_]). *)
Definition forget_span {DecoderState : Type} (m : @Machine DecoderState) : Machine :=
  set_span [] O O m.

(** Forgetting whether there is a logger and what it received. *)
Definition forget_log {DecoderState : Type} (m : @Machine DecoderState) : Machine :=
  set_logger_ false (set_logged [] m).

(** Forgetting whether there is an action handler and what it received. *)
Definition forget_handler {DecoderState : Type} (m : @Machine DecoderState) : Machine :=
  set_actionHandler_ false (set_emitted [] m).

(** Number of emissions equal to [e] in a record of calls. *)
Definition emission_eqb (e1 e2 : Emission) : bool :=
  match e1, e2 with
  | (k1, a1, c1), (k2, a2, c2) =>
      match k1, k2 with
      | Enter, Enter | Event, Event | Leave, Leave | Transition, Transition => true
      | _, _ => false
      end && Action.eqb a1 a2 && (c1 =? c2)
  end.

(** Number of calls of class [k] with action [a] in a record of calls. *)
Definition count_calls (k : ActionClass) (a : Action.t) (es : list Emission) : nat :=
  List.length (filter (fun e => emission_eqb (k, a, snd e) e) es).

(** ** The loop without its cursor *)

Section Feeding.

Context {DecoderState : Type}.
Variable decode : DecoderState -> byte -> DecoderState * utf8.Result.
Variable table : ParserTable.

(** What one turn of the loop of [parse] does with the byte [b], the cursor
    left alone. *)
Definition feed (b : byte) : M unit :=
  modify (set_currentChar_ 0) ;;
  r <- decodeByte decode b ;;
  visit table r.

(** The turns of the loop over the bytes [bs], in order. *)
Fixpoint feedAll (bs : list byte) : M unit :=
  match bs with
  | [] => ret tt
  | b :: bs' => feed b ;; feedAll bs'
  end.

End Feeding.

(** ** Vocabulary of the proofs *)

(** [x] cannot tell [m] from [f m], up to [f]. *)
Definition respects {DecoderState A : Type} (f : @Machine DecoderState -> @Machine DecoderState)
  (x : M A) : Prop :=
  forall m, outcome_map f (x m) = outcome_map f (x (f m)).

(** [x] leaves the view [proj] of the machine as it found it. *)
Definition preserves {DecoderState A X : Type} (proj : @Machine DecoderState -> X)
  (x : M A) : Prop :=
  forall m a m', x m = Returns a m' -> proj m' = proj m.

(** [x] is not a loop: it never stops for lack of fuel. *)
Definition fuel_free {DecoderState A : Type} (x : @M DecoderState A) : Prop :=
  forall m, x m <> OutOfFuel.

(** The fragment and the cursor. *)
Definition span {DecoderState : Type} (m : @Machine DecoderState) : list byte * nat * nat :=
  (fragment m, begin_ m, end_ m).

(** Whether there is a handler, and what it has received when there is none. *)
Definition silence {DecoderState : Type} (m : @Machine DecoderState) : bool * list Emission :=
  (actionHandler_ m, if actionHandler_ m then [] else emitted m).

(** The balance of a record of calls for an entry action [a_in] and an exit
    action [a_out]: entries not yet matched by an exit. *)
Definition open_calls (a_in a_out : Action.t) (es : list Emission) : Z :=
  Z.of_nat (count_calls Enter a_in es) - Z.of_nat (count_calls Leave a_out es).

(** The three ways of forgetting part of a machine. *)
Definition forgetful {DecoderState : Type} (f : @Machine DecoderState -> @Machine DecoderState)
  : Prop :=
  f = forget_span \/ f = forget_log \/ f = forget_handler.

(** ** Reading the result of a run *)

Definition state_after {DecoderState A : Type} (o : @Outcome DecoderState A) : option State.t :=
  match o with
  | Returns _ m => Some (state_ m)
  | _ => None
  end.

Definition emitted_after {DecoderState A : Type} (o : @Outcome DecoderState A)
  : option (list Emission) :=
  match o with
  | Returns _ m => Some (emitted m)
  | _ => None
  end.

Definition logged_after {DecoderState A : Type} (o : @Outcome DecoderState A)
  : option (list LogEvent) :=
  match o with
  | Returns _ m => Some (logged m)
  | _ => None
  end.

Definition cursor_after {DecoderState A : Type} (o : @Outcome DecoderState A)
  : option (nat * nat) :=
  match o with
  | Returns _ m => Some (begin_ m, end_ m)
  | _ => None
  end.

(** The switch dispatcher on a sequence of code points, one after the other. *)
Fixpoint dispatchAllViaSwitch {DecoderState : Type} (cs : list Z) : @M DecoderState unit :=
  match cs with
  | [] => ret tt
  | c :: cs' => dispatchViaSwitch c ;; dispatchAllViaSwitch cs'
  end.

(** The class of an emission. *)
Definition class_of (e : Emission) : ActionClass := fst (fst e).

(** The code point a decoder outcome delivers to the dispatcher, if any. *)
Definition delivered (r : utf8.Result) : option Z :=
  match r with
  | utf8.Incomplete => None
  | utf8.Invalid replacementCharacter => Some replacementCharacter
  | utf8.Success value => Some value
  end.

(** In the machine [m], the entries [Enter(a_in)] not yet matched by a
    [Leave(a_out)] number one when the parser is in [string_state] and none
    otherwise. *)
Definition balanced {DecoderState : Type} (a_in a_out : Action.t) (string_state : State.t)
  (m : @Machine DecoderState) : Prop :=
  open_calls a_in a_out (emitted m) = (if State.eqb (state_ m) string_state then 1 else 0).


(** ** The rest of Parser.h *)

(** [to_string(Parser::State)] (Parser.h, lines 388-425); the closing
    [return "?"] is for values outside the enumeration. *)
Definition to_string_State (state : State.t) : string :=
  match state with
  | State.Undefined => "Undefined"
  | State.Ground => "Ground"
  | State.Escape => "Escape"
  | State.EscapeIntermediate => "EscapeIntermediate"
  | State.CSI_Entry => "CSI Entry"
  | State.CSI_Param => "CSI Param"
  | State.CSI_Intermediate => "CSI Intermediate"
  | State.CSI_Ignore => "CSI Ignore"
  | State.DCS_Entry => "DCS Entry"
  | State.DCS_Param => "DCS Param"
  | State.DCS_Intermediate => "DCS Intermediate"
  | State.DCS_PassThrough => "DCS PassThrough"
  | State.DCS_Ignore => "DCS Ignore"
  | State.OSC_String => "OSC String"
  | State.SOS_PM_APC_String => "SOS/PM/APC String"
  end%string.

(** [to_string(Parser::ActionClass)] (Parser.h, lines 427-441). *)
Definition to_string_ActionClass (actionClass : ActionClass) : string :=
  match actionClass with
  | Enter => "Enter"
  | Event => "Event"
  | Leave => "Leave"
  | Transition => "Transition"
  end%string.

(** [to_string(Parser::Action)] (Parser.h, lines 443-479). *)
Definition to_string_Action (action : Action.t) : string :=
  match action with
  | Action.Undefined => "Undefined"
  | Action.Ignore => "Ignore"
  | Action.Execute => "Execute"
  | Action.Print => "Print"
  | Action.Clear => "Clear"
  | Action.Collect => "Collect"
  | Action.Param => "Param"
  | Action.ESC_Dispatch => "Escape Dispatch"
  | Action.CSI_Dispatch => "CSI Dispatch"
  | Action.Hook => "Hook"
  | Action.Put => "Put"
  | Action.Unhook => "Unhook"
  | Action.OSC_Start => "OSC Start"
  | Action.OSC_Put => "OSC Put"
  | Action.OSC_End => "OSC End"
  end%string.

(** [std::numeric_limits<Parser::State>] (Parser.h, lines 494-501); [size()]
    is [State.size]. *)
Definition State_min : State.t := State.Ground.
Definition State_max : State.t := State.SOS_PM_APC_String.

(** [operator++(Parser::State&)] (Parser.h, lines 481-489), on the value of
    the underlying [uint8_t]: the increment may leave the enumeration by one. *)
Definition State_increment (s : Z) : Z :=
  if s <=? State.index State.SOS_PM_APC_String then (1 + s) mod 256 else s.

(** The loop that the comment of [operator++] has in mind,
    [for (s = first; s <= max(); ++s)], as the list of the values of [s] in
    its body; [None] when [fuel] turns do not reach the end. *)
Fixpoint State_range (fuel : nat) (s : Z) : option (list Z) :=
  if s <=? State.index State_max then
    match fuel with
    | O => None
    | S fuel' => option_map (cons s) (State_range fuel' (State_increment s))
    end
  else Some [].

(** ** What the decoder reports for a fragment *)

(** The outcomes of [decode] for the bytes [bs] in order, from the decoder
    state [d], and the decoder state after them. *)
Fixpoint decodeAll {DecoderState : Type}
  (decode : DecoderState -> byte -> DecoderState * utf8.Result)
  (d : DecoderState) (bs : list byte) : DecoderState * list utf8.Result :=
  match bs with
  | [] => (d, [])
  | b :: bs' =>
      let (d1, r) := decode d b in
      let (d2, rs) := decodeAll decode d1 bs' in
      (d2, r :: rs)
  end.

(** The code points that a list of outcomes delivers to the dispatcher. *)
Fixpoint codepoints (rs : list utf8.Result) : list Z :=
  match rs with
  | [] => []
  | r :: rs' =>
      match delivered r with
      | Some c => c :: codepoints rs'
      | None => codepoints rs'
      end
  end.

(** The action of an emission. *)
Definition action_of (e : Emission) : Action.t := snd (fst e).

(** What [handleViaSwitch] answers to an execute character in the state [s]
    (the first branch of each case but [State::Undefined]). *)
Definition execute_action (s : State.t) : Action.t :=
  match s with
  | State.DCS_PassThrough => Action.Put
  | State.DCS_Ignore | State.OSC_String | State.SOS_PM_APC_String => Action.Ignore
  | _ => Action.Execute
  end.

(** The machine a run returns with ([m] when it does not return). *)
Definition machine_after {DecoderState A : Type} (o : @Outcome DecoderState A)
  (m : @Machine DecoderState) : @Machine DecoderState :=
  match o with
  | Returns _ m' => m'
  | _ => m
  end.

Definition LogEvent_eq_dec (x y : LogEvent) : {x = y} + {x <> y}.
Proof. decide equality; auto using State.eq_dec, Z.eq_dec, bool_dec. Defined.

(** Whether an outcome of the decoder is [Invalid]. *)
Definition is_Invalid (r : utf8.Result) : bool :=
  match r with
  | utf8.Invalid _ => true
  | _ => false
  end.

(** What one call of [handleViaTables] may have done between [m] and [m']:
    it leaves the decoder, the current character and the two callbacks alone,
    keeps the state or moves to a defined one, makes at most three calls to
    the handler, all with the current character, and logs no "Invalid UTF8!"
    (and nothing without a logger). *)
Definition dispatch_effect {DecoderState : Type} (m m' : @Machine DecoderState) : Prop :=
  utf8Decoder_ m' = utf8Decoder_ m /\
  currentChar_ m' = currentChar_ m /\
  actionHandler_ m' = actionHandler_ m /\
  logger_ m' = logger_ m /\
  (state_ m' = state_ m \/ state_ m' <> State.Undefined) /\
  (exists new, emitted m' = emitted m ++ new /\ (List.length new <= 3)%nat /\
               Forall (fun e => snd e = currentChar_ m) new) /\
  (exists news, logged m' = logged m ++ news /\ ~ In InvalidUTF8 news /\
                (logger_ m = false -> news = [])).

(** What one turn of the loop may have done between [m] and [m'] when the
    decoder went to [d] and reported [r]. *)
Definition turn_effect {DecoderState : Type} (d : DecoderState) (r : utf8.Result)
  (m m' : @Machine DecoderState) : Prop :=
  utf8Decoder_ m' = d /\
  currentChar_ m' = match delivered r with Some c => c | None => 0 end /\
  actionHandler_ m' = actionHandler_ m /\
  logger_ m' = logger_ m /\
  (state_ m' = state_ m \/ state_ m' <> State.Undefined) /\
  (exists new, emitted m' = emitted m ++ new /\
               (List.length new <= 3 * List.length (codepoints [r]))%nat /\
               Forall (fun e => delivered r = Some (snd e)) new) /\
  (exists news, logged m' = logged m ++ news /\
                count_occ LogEvent_eq_dec news InvalidUTF8
                = (if is_Invalid r && logger_ m then 1%nat else 0%nat) /\
                (logger_ m = false -> news = [])).

(** What the loop may have done between [m] and [m'] over bytes for which the
    decoder reported [rs] and ended in [d]. *)
Definition fragment_effect {DecoderState : Type} (d : DecoderState) (rs : list utf8.Result)
  (m m' : @Machine DecoderState) : Prop :=
  utf8Decoder_ m' = d /\
  actionHandler_ m' = actionHandler_ m /\
  logger_ m' = logger_ m /\
  (state_ m' = state_ m \/ state_ m' <> State.Undefined) /\
  (exists new, emitted m' = emitted m ++ new /\
               (List.length new <= 3 * List.length (codepoints rs))%nat /\
               Forall (fun e => In (snd e) (codepoints rs)) new) /\
  (exists news, logged m' = logged m ++ news /\
                count_occ LogEvent_eq_dec news InvalidUTF8
                = (if logger_ m then List.length (filter is_Invalid rs) else 0%nat) /\
                (logger_ m = false -> news = [])).

(** What one call of [handleViaSwitch] may have done between [m] and [m']: it
    leaves the decoder, the current character, the callbacks and the cursor
    alone; it keeps the state or moves to a state other than [Undefined] and
    [CSI_Param]; it makes at most two calls to the handler, with the current
    character, never with the class [Leave] nor the actions [Unhook],
    [OSC_End] or [Undefined]; it logs at most one event, none without a
    logger. *)
Definition switch_effect {DecoderState : Type} (m m' : @Machine DecoderState) : Prop :=
  utf8Decoder_ m' = utf8Decoder_ m /\
  currentChar_ m' = currentChar_ m /\
  actionHandler_ m' = actionHandler_ m /\
  logger_ m' = logger_ m /\
  traceLog_ m' = traceLog_ m /\
  span m' = span m /\
  (state_ m' = state_ m \/ (state_ m' <> State.Undefined /\ state_ m' <> State.CSI_Param)) /\
  (exists new, emitted m' = emitted m ++ new /\ (List.length new <= 2)%nat /\
               Forall (fun e => snd e = currentChar_ m /\ class_of e <> Leave /\
                                action_of e <> Action.Unhook /\
                                action_of e <> Action.OSC_End /\
                                action_of e <> Action.Undefined) new) /\
  (exists news, logged m' = logged m ++ news /\ (List.length news <= 1)%nat /\
                (logger_ m = false -> news = [])).

(** A call that has [switch_effect] whenever it returns. *)
Definition switch_ok {DecoderState : Type} (m : @Machine DecoderState)
  (o : @Outcome DecoderState unit) : Prop :=
  forall m', o = Returns tt m' -> switch_effect m m'.
(** ** The state machine on the outcomes of the decoder *)

(** What the loop of [parse] does with the outcomes [rs] that the decoder
    reported for its bytes, decoder and cursor left alone: the reset of
    [currentChar_] and the visitor, turn by turn. *)
Fixpoint dispatchAll {DecoderState : Type} (table : ParserTable) (rs : list utf8.Result)
  : @M DecoderState unit :=
  match rs with
  | [] => ret tt
  | r :: rs' => modify (set_currentChar_ 0) ;; visit table r ;; dispatchAll table rs'
  end.


(** An outcome with [Invalid] read as a [Success] of the replacement
    character. *)
Definition as_Success (r : utf8.Result) : utf8.Result :=
  match r with
  | utf8.Invalid replacementCharacter => utf8.Success replacementCharacter
  | _ => r
  end.

(** The decoder [decode] with every [Invalid] report read that way: the same
    decoder states, and [Success] of the replacement character where [decode]
    reports [Invalid]. *)
Definition reporting_Success {DecoderState : Type}
  (decode : DecoderState -> byte -> DecoderState * utf8.Result)
  : DecoderState -> byte -> DecoderState * utf8.Result :=
  fun d b => let (d', r) := decode d b in (d', as_Success r).

(** * Properties *)

(** ** The conversions *)

Lemma to_wchar_t_small (c : Z) : 0 <= c < 0x80000000 -> to_wchar_t c = c.
Proof.
  intros H. unfold to_wchar_t. cbv zeta.
  change (2 ^ 32) with 4294967296. change (2 ^ 31) with 2147483648.
  rewrite Z.mod_small by lia.
  destruct (c <? 2147483648) eqn:E; [reflexivity |].
  apply Z.ltb_ge in E. lia.
Qed.

(** ** The monad *)

Section MonadFacts.

Context {DecoderState : Type}.
Implicit Types m : @Machine DecoderState.
Implicit Types f : @Machine DecoderState -> @Machine DecoderState.

Lemma bind_Returns {A B : Type} (x : @M DecoderState A) (k : A -> @M DecoderState B) m a m' :
  x m = Returns a m' -> bind x k m = k a m'.
Proof. intros H. unfold bind. now rewrite H. Qed.

Lemma bind_inv {A B : Type} (x : @M DecoderState A) (k : A -> @M DecoderState B) m b m'' :
  bind x k m = Returns b m'' ->
  exists a m', x m = Returns a m' /\ k a m' = Returns b m''.
Proof.
  unfold bind. destruct (x m) as [a m'| |]; try discriminate.
  intros H. now exists a, m'.
Qed.

Lemma bind_assoc {A B C : Type} (x : @M DecoderState A) (k : A -> @M DecoderState B)
  (h : B -> @M DecoderState C) m :
  bind (bind x k) h m = bind x (fun a => bind (k a) h) m.
Proof. unfold bind. destruct (x m); reflexivity. Qed.

Lemma bind_ext {A B : Type} (x : @M DecoderState A) (k k' : A -> @M DecoderState B) m :
  (forall a m', k a m' = k' a m') -> bind x k m = bind x k' m.
Proof. intros H. unfold bind. destruct (x m); [apply H | reflexivity | reflexivity]. Qed.

Lemma respects_bind {A B : Type} f (x : @M DecoderState A) (k : A -> @M DecoderState B) :
  respects f x -> (forall a, respects f (k a)) -> respects f (bind x k).
Proof.
  intros Hx Hk m. unfold bind. specialize (Hx m).
  destruct (x m) as [a m1| |], (x (f m)) as [a' m2| |]; simpl in Hx;
    try discriminate; try reflexivity.
  injection Hx as -> Hm.
  rewrite (Hk a' m1), (Hk a' m2). now rewrite Hm.
Qed.

Lemma respects_ret {A : Type} f (a : A) :
  (forall m, f (f m) = f m) -> respects f (@ret DecoderState A a).
Proof. intros Hf m. simpl. unfold ret. now rewrite Hf. Qed.

Lemma forgetful_idempotent f : forgetful f -> forall m, f (f m) = f m.
Proof. intros [-> | [-> | ->]] m; reflexivity. Qed.

Lemma preserves_bind {A B X : Type} (proj : Machine -> X) (x : @M DecoderState A) (k : A -> @M DecoderState B) :
  preserves proj x -> (forall a, preserves proj (k a)) -> preserves proj (bind x k).
Proof.
  intros Hx Hk m b m'' H.
  apply bind_inv in H as (a & m' & H1 & H2).
  rewrite (Hk a _ _ _ H2). exact (Hx _ _ _ H1).
Qed.

Lemma preserves_ret {A X : Type} (proj : Machine -> X) (a : A) :
  preserves proj (@ret DecoderState A a).
Proof. intros m a' m' H. now injection H as _ <-. Qed.

Lemma fuel_free_bind {A B : Type} (x : @M DecoderState A) (k : A -> @M DecoderState B) :
  fuel_free x -> (forall a, fuel_free (k a)) -> fuel_free (bind x k).
Proof.
  intros Hx Hk m. unfold bind. specialize (Hx m).
  destruct (x m) as [a m'| |]; [apply Hk | discriminate | contradiction].
Qed.

Lemma outcome_map_map {A : Type} (f : Machine -> Machine) (o : Outcome A) :
  (forall m, f (f m) = f m) -> outcome_map f (outcome_map f o) = outcome_map f o.
Proof. intros Hf. destruct o; simpl; [now rewrite Hf | reflexivity | reflexivity]. Qed.

End MonadFacts.

(** ** The member functions, one by one *)

Section StepFacts.

Context {DecoderState : Type}.
Variable decode : DecoderState -> byte -> DecoderState * utf8.Result.
Variable table : ParserTable.
Implicit Types m : @Machine DecoderState.
Implicit Types f : @Machine DecoderState -> @Machine DecoderState.

Lemma respects_invokeAction f k a : forgetful f -> respects f (invokeAction k a).
Proof.
  intros [-> | [-> | ->]] [? ? ? ? ? [] ? ? ? ? ? ?]; reflexivity.
Qed.

Lemma respects_log f ev : forgetful f -> respects f (log ev).
Proof.
  intros [-> | [-> | ->]] [? ? ? ? ? ? [] ? ? ? ? ?]; reflexivity.
Qed.

Lemma respects_set_state_ f s : forgetful f -> respects f (modify (set_state_ s)).
Proof. intros [-> | [-> | ->]] m; reflexivity. Qed.

Lemma respects_set_currentChar_ f c : forgetful f -> respects f (modify (set_currentChar_ c)).
Proof. intros [-> | [-> | ->]] m; reflexivity. Qed.

Lemma respects_decodeByte f b : forgetful f -> respects f (decodeByte decode b).
Proof.
  intros [-> | [-> | ->]] m; unfold decodeByte; simpl;
    destruct (decode (utf8Decoder_ m) b); reflexivity.
Qed.

Lemma respects_lookup_event f s :
  forgetful f ->
  respects f (fun m' =>
    match subscript table (events table s) (currentChar m') with
    | None => UndefinedBehaviour
    | Some a => invokeAction Transition a m'
    end).
Proof.
  intros Hf m.
  assert (Hc : currentChar (f m) = currentChar m)
    by (destruct Hf as [-> | [-> | ->]]; reflexivity).
  rewrite Hc.
  destruct (subscript table (events table s) (currentChar m));
    [now apply respects_invokeAction | reflexivity].
Qed.

Lemma respects_handleViaTables f : forgetful f -> respects f (handleViaTables table).
Proof.
  intros Hf m. unfold handleViaTables.
  assert (Hs : state_ (f m) = state_ m) by (destruct Hf as [-> | [-> | ->]]; reflexivity).
  assert (Hc : currentChar (f m) = currentChar m)
    by (destruct Hf as [-> | [-> | ->]]; reflexivity).
  rewrite Hs, Hc.
  destruct (State.eqb (state_ m) State.Ground && isPrintChar (to_wchar_t (currentChar m))).
  { apply respects_invokeAction, Hf. }
  destruct (subscript table (transitions table (state_ m)) (currentChar m)) as [t|];
    [| reflexivity].
  destruct (negb (State.eqb t State.Undefined)).
  - generalize (state_ m) as s. clear Hs Hc. intros s. revert m.
    apply respects_bind; [now apply respects_invokeAction | intros _].
    apply respects_bind; [now apply respects_lookup_event | intros _].
    apply respects_bind; [now apply respects_set_state_ | intros _].
    now apply respects_invokeAction.
  - destruct (subscript table (events table (state_ m)) (currentChar m)) as [a|];
      [| reflexivity].
    destruct (negb (Action.eqb a Action.Undefined));
      [now apply respects_invokeAction | now apply respects_log].
Qed.

End StepFacts.

Section LoopFacts.

Context {DecoderState : Type}.
Variable decode : DecoderState -> byte -> DecoderState * utf8.Result.
Variable table : ParserTable.
Implicit Types m : @Machine DecoderState.
Implicit Types f : @Machine DecoderState -> @Machine DecoderState.

Lemma respects_visit f r : forgetful f -> respects f (visit table r).
Proof.
  intros Hf. destruct r as [| c | c]; simpl.
  - apply respects_ret, forgetful_idempotent, Hf.
  - apply respects_bind; [now apply respects_log | intros _].
    apply respects_bind; [now apply respects_set_currentChar_ | intros _].
    now apply respects_handleViaTables.
  - apply respects_bind; [now apply respects_set_currentChar_ | intros _].
    now apply respects_handleViaTables.
Qed.

Lemma respects_feed f b : forgetful f -> respects f (feed decode table b).
Proof.
  intros Hf. unfold feed.
  apply respects_bind; [now apply respects_set_currentChar_ | intros _].
  apply respects_bind; [now apply respects_decodeByte | intros r].
  now apply respects_visit.
Qed.

Lemma respects_feedAll f bs : forgetful f -> respects f (feedAll decode table bs).
Proof.
  intros Hf. induction bs as [| b bs IH]; simpl.
  - apply respects_ret, forgetful_idempotent, Hf.
  - apply respects_bind; [now apply respects_feed | intros _; exact IH].
Qed.

(** Forgetting the logger or the handler leaves the cursor in sight. *)

Lemma respects_currentByte f :
  f = forget_log \/ f = forget_handler -> respects f currentByte.
Proof.
  intros [-> | ->] m; unfold currentByte; simpl;
    destruct (nth_error (fragment m) (begin_ m)); reflexivity.
Qed.

Lemma respects_advance f :
  f = forget_log \/ f = forget_handler -> respects f advance.
Proof. intros [-> | ->] m; reflexivity. Qed.

Lemma respects_iteration f :
  f = forget_log \/ f = forget_handler -> respects f (iteration decode table).
Proof.
  intros Hf.
  assert (Hf' : forgetful f) by (right; exact Hf).
  unfold iteration.
  apply respects_bind; [now apply respects_set_currentChar_ | intros _].
  apply respects_bind; [now apply respects_currentByte | intros b].
  apply respects_bind; [now apply respects_decodeByte | intros r].
  apply respects_bind; [now apply respects_visit | intros _].
  now apply respects_advance.
Qed.

Lemma respects_parse_loop f fuel :
  f = forget_log \/ f = forget_handler -> respects f (parse_loop decode table fuel).
Proof.
  intros Hf. induction fuel as [| fuel IH]; intros m; simpl.
  - assert (Hd : dataAvailable (f m) = dataAvailable m)
      by (destruct Hf as [-> | ->]; reflexivity).
    rewrite Hd. destruct (dataAvailable m); [reflexivity |].
    simpl. now rewrite (forgetful_idempotent f (or_intror Hf)).
  - assert (Hd : dataAvailable (f m) = dataAvailable m)
      by (destruct Hf as [-> | ->]; reflexivity).
    rewrite Hd. destruct (dataAvailable m).
    + revert m Hd. intros m _. revert m.
      apply respects_bind; [now apply respects_iteration | intros _; exact IH].
    + simpl. now rewrite (forgetful_idempotent f (or_intror Hf)).
Qed.

Lemma respects_parseFragment f s :
  f = forget_log \/ f = forget_handler -> respects f (parseFragment decode table s).
Proof.
  intros Hf. unfold parseFragment.
  apply respects_bind.
  - destruct Hf as [-> | ->]; intros m; reflexivity.
  - intros _ m. unfold parse.
    assert (He : (end_ (f m) - begin_ (f m) = end_ m - begin_ m)%nat)
      by (destruct Hf as [-> | ->]; reflexivity).
    rewrite He. now apply respects_parse_loop.
Qed.

End LoopFacts.

(** ** What a run leaves untouched *)

Section Preservation.

Context {DecoderState X : Type}.
Variable decode : DecoderState -> byte -> DecoderState * utf8.Result.
Variable table : ParserTable.
Variable proj : @Machine DecoderState -> X.

Hypothesis proj_emitted : forall m es, actionHandler_ m = true ->
  proj (set_emitted es m) = proj m.
Hypothesis proj_logged : forall m ls, proj (set_logged ls m) = proj m.
Hypothesis proj_state_ : forall m s, proj (set_state_ s m) = proj m.
Hypothesis proj_currentChar_ : forall m c, proj (set_currentChar_ c m) = proj m.
Hypothesis proj_utf8Decoder_ : forall m d, proj (set_utf8Decoder_ d m) = proj m.

Lemma preserves_invokeAction k a : preserves proj (invokeAction k a).
Proof.
  intros m u m'. unfold invokeAction.
  destruct (actionHandler_ m) eqn:Hh; intros H; injection H as _ <-;
    [now apply proj_emitted | reflexivity].
Qed.

Lemma preserves_log ev : preserves proj (log ev).
Proof.
  intros m u m'. unfold log.
  destruct (logger_ m); intros H; injection H as _ <-;
    [apply proj_logged | reflexivity].
Qed.

Lemma preserves_modify g : (forall m, proj (g m) = proj m) -> preserves proj (modify g).
Proof. intros Hg m u m' H. injection H as _ <-. apply Hg. Qed.

Lemma preserves_handleViaTables : preserves proj (handleViaTables table).
Proof.
  intros m u m'. unfold handleViaTables.
  destruct (State.eqb (state_ m) State.Ground && isPrintChar (to_wchar_t (currentChar m))).
  { apply preserves_invokeAction. }
  destruct (subscript table (transitions table (state_ m)) (currentChar m)) as [t|];
    [| discriminate].
  destruct (negb (State.eqb t State.Undefined)).
  - apply preserves_bind; [apply preserves_invokeAction | intros _].
    apply preserves_bind; [| intros _].
    + intros m1 u1 m1'.
      destruct (subscript table (events table (state_ m)) (currentChar m1));
        [apply preserves_invokeAction | discriminate].
    + apply preserves_bind; [apply preserves_modify; intros; apply proj_state_ | intros _].
      apply preserves_invokeAction.
  - destruct (subscript table (events table (state_ m)) (currentChar m)) as [a|];
      [| discriminate].
    destruct (negb (Action.eqb a Action.Undefined));
      [apply preserves_invokeAction | apply preserves_log].
Qed.

Lemma preserves_visit r : preserves proj (visit table r).
Proof.
  destruct r as [| c | c]; simpl.
  - apply preserves_ret.
  - apply preserves_bind; [apply preserves_log | intros _].
    apply preserves_bind;
      [apply preserves_modify; intros; apply proj_currentChar_ | intros _].
    apply preserves_handleViaTables.
  - apply preserves_bind;
      [apply preserves_modify; intros; apply proj_currentChar_ | intros _].
    apply preserves_handleViaTables.
Qed.

Lemma preserves_decodeByte b : preserves proj (decodeByte decode b).
Proof.
  intros m r m'. unfold decodeByte.
  destruct (decode (utf8Decoder_ m) b) as [d r']. intros H. injection H as _ <-.
  apply proj_utf8Decoder_.
Qed.

Lemma preserves_feed b : preserves proj (feed decode table b).
Proof.
  unfold feed.
  apply preserves_bind;
    [apply preserves_modify; intros; apply proj_currentChar_ | intros _].
  apply preserves_bind; [apply preserves_decodeByte | intros r].
  apply preserves_visit.
Qed.

Lemma preserves_feedAll bs : preserves proj (feedAll decode table bs).
Proof.
  induction bs as [| b bs IH]; simpl.
  - apply preserves_ret.
  - apply preserves_bind; [apply preserves_feed | intros _; exact IH].
Qed.

End Preservation.

(** ** The loop of [parse] and the bytes of the fragment *)

Section FragmentFacts.

Context {DecoderState : Type}.
Variable decode : DecoderState -> byte -> DecoderState * utf8.Result.
Variable table : ParserTable.
Implicit Types m : @Machine DecoderState.

Lemma feedAll_span bs : preserves span (feedAll decode table bs).
Proof. apply preserves_feedAll; intros; reflexivity. Qed.

Lemma feed_span b : preserves span (feed decode table b).
Proof. apply preserves_feed; intros; reflexivity. Qed.

Lemma feedAll_silence bs : preserves silence (feedAll decode table bs).
Proof.
  apply preserves_feedAll; intros; try reflexivity.
  unfold silence. simpl. now rewrite H.
Qed.

(** A computation that neither reads nor writes the fragment and the cursor
    can be run before or after they are set. *)
Lemma span_commutes {A : Type} (x : @M DecoderState A) s b e m :
  respects forget_span x -> preserves span x ->
  x (set_span s b e m) = outcome_map (set_span s b e) (x m).
Proof.
  intros Hr Hp.
  pose proof (Hr (set_span s b e m)) as H1. pose proof (Hr m) as H2.
  change (forget_span (set_span s b e m)) with (forget_span m) in H1.
  rewrite <- H2 in H1. clear H2.
  specialize (Hp (set_span s b e m)).
  destruct (x (set_span s b e m)) as [a m2| |], (x m) as [a' m1| |];
    simpl in H1; try discriminate; try reflexivity.
  specialize (Hp a m2 eq_refl).
  destruct m1, m2. unfold span, forget_span, set_span in *. simpl in *.
  congruence.
Qed.

Lemma feedAll_set_span bs s b e m :
  feedAll decode table bs (set_span s b e m)
  = outcome_map (set_span s b e) (feedAll decode table bs m).
Proof.
  apply span_commutes; [apply respects_feedAll; now left | apply feedAll_span].
Qed.

Lemma feed_set_span c s b e m :
  feed decode table c (set_span s b e m)
  = outcome_map (set_span s b e) (feed decode table c m).
Proof.
  apply span_commutes; [apply respects_feed; now left | apply feed_span].
Qed.

Lemma feedAll_app bs1 bs2 m :
  feedAll decode table (bs1 ++ bs2) m
  = (feedAll decode table bs1 ;; feedAll decode table bs2) m.
Proof.
  revert m. induction bs1 as [| b bs1 IH]; intros m; simpl.
  - reflexivity.
  - rewrite bind_assoc. apply bind_ext. intros _ m'. apply IH.
Qed.

Lemma fuel_free_invokeAction k a : fuel_free (@invokeAction DecoderState k a).
Proof. intros m. unfold invokeAction. destruct (actionHandler_ m); discriminate. Qed.

Lemma fuel_free_log ev : fuel_free (@log DecoderState ev).
Proof. intros m. unfold log. destruct (logger_ m); discriminate. Qed.

Lemma fuel_free_modify g : fuel_free (@modify DecoderState g).
Proof. intros m. discriminate. Qed.

Lemma fuel_free_handleViaTables : fuel_free (@handleViaTables DecoderState table).
Proof.
  intros m. unfold handleViaTables.
  destruct (State.eqb (state_ m) State.Ground && isPrintChar (to_wchar_t (currentChar m))).
  { apply fuel_free_invokeAction. }
  destruct (subscript table (transitions table (state_ m)) (currentChar m)) as [t|];
    [| discriminate].
  destruct (negb (State.eqb t State.Undefined)).
  - generalize (state_ m) as s. intros s. revert m.
    apply fuel_free_bind; [apply fuel_free_invokeAction | intros _].
    apply fuel_free_bind; [| intros _].
    + intros m1.
      destruct (subscript table (events table _) (currentChar m1));
        [apply fuel_free_invokeAction | discriminate].
    + apply fuel_free_bind; [apply fuel_free_modify | intros _].
      apply fuel_free_invokeAction.
  - destruct (subscript table (events table (state_ m)) (currentChar m)) as [a|];
      [| discriminate].
    destruct (negb (Action.eqb a Action.Undefined));
      [apply fuel_free_invokeAction | apply fuel_free_log].
Qed.

Lemma fuel_free_feed b : fuel_free (feed decode table b).
Proof.
  unfold feed.
  apply fuel_free_bind; [apply fuel_free_modify | intros _].
  apply fuel_free_bind.
  - intros m. unfold decodeByte. destruct (decode (utf8Decoder_ m) b). discriminate.
  - intros [| c | c]; simpl.
    + discriminate.
    + apply fuel_free_bind; [apply fuel_free_log | intros _].
      apply fuel_free_bind; [apply fuel_free_modify | intros _].
      apply fuel_free_handleViaTables.
    + apply fuel_free_bind; [apply fuel_free_modify | intros _].
      apply fuel_free_handleViaTables.
Qed.

Lemma fuel_free_feedAll bs : fuel_free (feedAll decode table bs).
Proof.
  induction bs as [| b bs IH]; simpl.
  - discriminate.
  - apply fuel_free_bind; [apply fuel_free_feed | intros _; exact IH].
Qed.

(** One turn of the loop is [feed] on the byte under the cursor, then one
    step of the cursor. *)
Lemma iteration_feed m b :
  nth_error (fragment m) (begin_ m) = Some b ->
  iteration decode table m = (feed decode table b ;; advance) m.
Proof.
  intros Hb. unfold iteration, feed, bind, modify, currentByte. simpl.
  rewrite Hb.
  destruct (decodeByte decode b (set_currentChar_ 0 m)) as [r m1| |]; try reflexivity.
Qed.

(** The loop, given fuel for the bytes that remain, is [feedAll] on those
    bytes with the cursor moved to the end. *)
Lemma parse_loop_feedAll bs : forall fuel m,
  skipn (begin_ m) (fragment m) = bs ->
  end_ m = List.length (fragment m) ->
  (begin_ m <= end_ m)%nat ->
  (List.length bs <= fuel)%nat ->
  parse_loop decode table fuel m
  = outcome_map (set_span (fragment m) (end_ m) (end_ m)) (feedAll decode table bs m).
Proof.
  induction bs as [| b bs IH]; intros fuel m Hskip Hend Hle Hfuel.
  - assert (Hbe : begin_ m = end_ m).
    { apply (f_equal (@List.length byte)) in Hskip.
      rewrite length_skipn in Hskip. simpl in Hskip. lia. }
    assert (Hd : dataAvailable m = false).
    { unfold dataAvailable. rewrite Hbe, Nat.eqb_refl. reflexivity. }
    destruct fuel; simpl; rewrite Hd; simpl; f_equal;
      destruct m; simpl in *; now subst.
  - assert (Hlt : (begin_ m < end_ m)%nat).
    { apply (f_equal (@List.length byte)) in Hskip.
      rewrite length_skipn in Hskip. simpl in Hskip. lia. }
    assert (Hd : dataAvailable m = true).
    { unfold dataAvailable. apply negb_true_iff, Nat.eqb_neq. lia. }
    assert (Hb : nth_error (fragment m) (begin_ m) = Some b).
    { rewrite <- (Nat.add_0_r (begin_ m)), <- nth_error_skipn, Hskip. reflexivity. }
    destruct fuel as [| fuel]; [simpl in Hfuel; lia |].
    simpl parse_loop. rewrite Hd.
    unfold bind. rewrite (iteration_feed m b Hb).
    simpl feedAll. unfold bind.
    pose proof (feed_span b m) as Hspan.
    destruct (feed decode table b m) as [u m1| |]; try reflexivity.
    specialize (Hspan u m1 eq_refl). unfold span in Hspan.
    injection Hspan as Hf Hbg He.
    unfold advance, modify.
    assert (Hf' : fragment (set_begin_ (S (begin_ m1)) m1) = fragment m) by exact Hf.
    assert (Hb' : begin_ (set_begin_ (S (begin_ m1)) m1) = S (begin_ m))
      by (simpl; now rewrite Hbg).
    assert (He' : end_ (set_begin_ (S (begin_ m1)) m1) = end_ m) by exact He.
    rewrite (IH fuel (set_begin_ (S (begin_ m1)) m1)).
    + rewrite Hf', He'.
      replace (set_begin_ (S (begin_ m1)) m1)
        with (set_span (fragment m1) (S (begin_ m1)) (end_ m1) m1)
        by (destruct m1; reflexivity).
      rewrite feedAll_set_span.
      destruct (feedAll decode table bs m1); reflexivity.
    + rewrite Hf', Hb'.
      rewrite <- (Nat.add_1_l (begin_ m)), <- skipn_skipn, Hskip. reflexivity.
    + now rewrite He', Hf'.
    + rewrite Hb', He'. lia.
    + simpl in Hfuel. lia.
Qed.

(** [parseFragment] is [feedAll] on its bytes; it returns with the cursor at
    the end of the fragment. *)
Lemma parseFragment_feedAll s m :
  parseFragment decode table s m
  = outcome_map (set_span s (List.length s) (List.length s)) (feedAll decode table s m).
Proof.
  unfold parseFragment, bind, modify, parse.
  rewrite (parse_loop_feedAll s); simpl; try reflexivity; try lia.
  rewrite feedAll_set_span.
  destruct (feedAll decode table s m); reflexivity.
Qed.

End FragmentFacts.

(** ** The switch dispatcher *)

Section SwitchFacts.

Context {DecoderState : Type}.
Implicit Types m : @Machine DecoderState.

(** With no trace log installed, [logTrace] does nothing. *)
Lemma logTrace_off message m :
  traceLog_ m = false -> logTrace message m = Returns tt m.
Proof. intros Ht. unfold logTrace. now rewrite Ht. Qed.

Lemma transitionTo_state t a m :
  state_after (transitionTo t a m) = Some t.
Proof.
  unfold transitionTo, bind, invokeAction, modify.
  destruct (actionHandler_ m) eqn:Hh; destruct t; simpl; rewrite ?Hh; reflexivity.
Qed.

(** [transitionTo] calls the handler with [Transition] and, for five target
    states, with [Enter]; it never calls it with [Leave]. *)
Lemma transitionTo_no_Leave t a m :
  exists m' new,
    transitionTo t a m = Returns tt m' /\
    state_ m' = t /\
    emitted m' = emitted m ++ new /\
    Forall (fun e => class_of e <> Leave) new.
Proof.
  unfold transitionTo, bind, invokeAction, modify.
  destruct (actionHandler_ m) eqn:Hh.
  - destruct t; simpl; rewrite ?Hh;
      eexists; eexists; (split; [reflexivity |]); simpl;
      (split; [reflexivity |]); rewrite <- ?app_assoc;
      (split; [reflexivity |]); repeat constructor; discriminate.
  - destruct t; simpl; rewrite ?Hh;
      eexists; exists []; (split; [reflexivity |]); simpl;
      (split; [reflexivity |]); rewrite ?app_nil_r;
      (split; [reflexivity |]); constructor.
Qed.

End SwitchFacts.

(** The switch dispatcher, which [parse] does not call.  In [handleViaSwitch], the case of
    [State::CSI_Param] repeats the case of [State::DCS_Param]: the character
    0x3A leads to [DCS_Ignore] and not to [CSI_Ignore]; the intermediate 0x20
    leads to [DCS_Intermediate] with [Transition(Ignore)], without [Collect];
    the final character 0x6D leads to [DCS_PassThrough] with [Enter(Hook)],
    and neither to [Ground] nor to a [CSI_Dispatch].  Parameter characters do
    emit [Event/Param] and keep the state. *)
Theorem handleViaSwitch_CSI_Param_takes_DCS_routes :
  let m := set_state_ State.CSI_Param (construct true false tt) in
  (state_after (dispatchViaSwitch 0x31 m) = Some State.CSI_Param /\
   emitted_after (dispatchViaSwitch 0x31 m) = Some [(Event, Action.Param, 0x31)]) /\
  (state_after (dispatchViaSwitch 0x3A m) = Some State.DCS_Ignore /\
   emitted_after (dispatchViaSwitch 0x3A m) = Some [(Transition, Action.Ignore, 0x3A)]) /\
  (state_after (dispatchViaSwitch 0x20 m) = Some State.DCS_Intermediate /\
   emitted_after (dispatchViaSwitch 0x20 m) = Some [(Transition, Action.Ignore, 0x20)]) /\
  (state_after (dispatchViaSwitch 0x6D m) = Some State.DCS_PassThrough /\
   emitted_after (dispatchViaSwitch 0x6D m)
   = Some [(Transition, Action.Ignore, 0x6D); (Enter, Action.Hook, 0x6D)]).
Proof. repeat split; reflexivity. Qed.

(** In [handleViaSwitch] the state [CSI_Entry] answers a parameter character
    with [Event/Param] and stays where it is, so the switch dispatcher handles
    the whole of "ESC [ 1 ; 3 1 m" in [CSI_Entry]. *)
Example switch_S3 :
  let o := dispatchAllViaSwitch [0x1B; 0x5B; 0x31; 0x3B; 0x33; 0x31; 0x6D]
             (construct true false tt) in
  state_after o = Some State.Ground /\
  emitted_after o
  = Some [(Transition, Action.Ignore, 0x1B); (Enter, Action.Clear, 0x1B);
          (Transition, Action.Ignore, 0x5B); (Enter, Action.Clear, 0x5B);
          (Event, Action.Param, 0x31); (Event, Action.Param, 0x3B);
          (Event, Action.Param, 0x33); (Event, Action.Param, 0x31);
          (Transition, Action.CSI_Dispatch, 0x6D)].
Proof. split; reflexivity. Qed.

(** The "anywhere" branches of [handleViaSwitch]
    go through [transitionTo], which fires no exit action: CAN (0x18) in
    [OSC_String] and ST (0x9C) in [DCS_PassThrough] both reach [Ground] with
    the single emission [Transition(Ignore)], so the string ends with neither
    [OSC_End] nor [Unhook]; ESC (0x1B) in [OSC_String] reaches [Escape] with
    [Enter(Clear)] and again no [OSC_End]. *)
Theorem handleViaSwitch_anywhere_fires_no_exit_action :
  let osc := set_state_ State.OSC_String (construct true false tt) in
  let dcs := set_state_ State.DCS_PassThrough (construct true false tt) in
  (state_after (dispatchViaSwitch 0x18 osc) = Some State.Ground /\
   emitted_after (dispatchViaSwitch 0x18 osc) = Some [(Transition, Action.Ignore, 0x18)]) /\
  (state_after (dispatchViaSwitch 0x9C dcs) = Some State.Ground /\
   emitted_after (dispatchViaSwitch 0x9C dcs) = Some [(Transition, Action.Ignore, 0x9C)]) /\
  (state_after (dispatchViaSwitch 0x1B osc) = Some State.Escape /\
   emitted_after (dispatchViaSwitch 0x1B osc)
   = Some [(Transition, Action.Ignore, 0x1B); (Enter, Action.Clear, 0x1B)]).
Proof. repeat split; reflexivity. Qed.

(** Through the switch dispatcher, "ESC ] CAN"
    enters [OSC_String] with [Enter(OSC_Start)] and is back in [Ground] with
    no [Leave(OSC_End)]; "ESC P @ ST" enters [DCS_PassThrough] with
    [Enter(Hook)] and is back in [Ground] with no [Leave(Unhook)]. *)
Theorem handleViaSwitch_leaves_strings_unpaired :
  let osc := dispatchAllViaSwitch [0x1B; 0x5D; 0x18] (construct true false tt) in
  let dcs := dispatchAllViaSwitch [0x1B; 0x50; 0x40; 0x9C] (construct true false tt) in
  (state_after osc = Some State.Ground /\
   option_map (count_calls Enter Action.OSC_Start) (emitted_after osc) = Some 1%nat /\
   option_map (count_calls Leave Action.OSC_End) (emitted_after osc) = Some 0%nat) /\
  (state_after dcs = Some State.Ground /\
   option_map (count_calls Enter Action.Hook) (emitted_after dcs) = Some 1%nat /\
   option_map (count_calls Leave Action.Unhook) (emitted_after dcs) = Some 0%nat).
Proof. repeat split; reflexivity. Qed.

(** [transitionTo], through which every
    transition of the switch dispatcher goes, calls the handler with
    [Transition] and then, after the assignment, with [Enter] where the
    target has an entry action; there is no [Leave] before them.  Leaving
    [OSC_String] for [Ground] emits [Transition(Ignore)] alone, leaving
    [Ground] for [Escape] emits [Transition(Ignore)], [Enter(Clear)]. *)
Theorem transitionTo_fires_no_Leave :
  let osc := set_state_ State.OSC_String (construct true false tt) in
  let ground := construct true false tt in
  emitted_after (transitionTo State.Ground Action.Ignore osc)
  = Some [(Transition, Action.Ignore, 0)] /\
  state_after (transitionTo State.Ground Action.Ignore osc) = Some State.Ground /\
  emitted_after (transitionTo State.Escape Action.Ignore ground)
  = Some [(Transition, Action.Ignore, 0); (Enter, Action.Clear, 0)] /\
  state_after (transitionTo State.Escape Action.Ignore ground) = Some State.Escape.
Proof. repeat split; reflexivity. Qed.

(** ** The table dispatcher *)

Section TableFacts.

Context {DecoderState : Type}.
Variable table : ParserTable.
Implicit Types m : @Machine DecoderState.

Lemma subscript_Some {A B : Type} (row : Z -> A) (row' : Z -> B) c x :
  subscript table row c = Some x -> subscript table row' c = Some (row' c).
Proof.
  unfold subscript. destruct ((0 <=? c) && (c <? width table)); [reflexivity | discriminate].
Qed.

Lemma subscript_None {A : Type} (row : Z -> A) c :
  subscript table row c = None <-> ~ (0 <= c < width table).
Proof.
  unfold subscript.
  destruct (0 <=? c) eqn:H0, (c <? width table) eqn:H1; simpl;
    rewrite ?Z.leb_le, ?Z.leb_gt, ?Z.ltb_lt, ?Z.ltb_ge in *;
    split; intros H; try discriminate; try reflexivity; lia.
Qed.

(** A transition of [handleViaTables] (lines 111-117): [Leave] with the exit
    action of the state left, [Transition] with the action of the table,
    the assignment, [Enter] with the entry action of the state entered.
    This is the order that [transitionTo] does not follow. *)
Lemma handleViaTables_transition m t :
  State.eqb (state_ m) State.Ground && isPrintChar (to_wchar_t (currentChar m)) = false ->
  subscript table (transitions table (state_ m)) (currentChar m) = Some t ->
  t <> State.Undefined ->
  handleViaTables table m
  = Returns tt
      (if actionHandler_ m
       then set_emitted
              (emitted m ++
               [(Leave, exitEvents table (state_ m), currentChar m);
                (Transition, events table (state_ m) (currentChar m), currentChar m);
                (Enter, entryEvents table t, currentChar m)])
              (set_state_ t m)
       else set_state_ t m).
Proof.
  intros Hfast Ht Hdef. unfold handleViaTables. rewrite Hfast, Ht.
  assert (Hneq : negb (State.eqb t State.Undefined) = true).
  { unfold State.eqb. destruct (State.eq_dec t State.Undefined); [contradiction | reflexivity]. }
  rewrite Hneq.
  pose proof (subscript_Some _ (events table (state_ m)) _ _ Ht) as He.
  unfold bind, invokeAction, modify, currentChar in *.
  destruct (actionHandler_ m) eqn:Hh; simpl; rewrite He, ?Hh; simpl; rewrite ?Hh.
  - f_equal. destruct m; simpl. now rewrite <- !app_assoc.
  - reflexivity.
Qed.

(** [handleViaTables] runs into an undefined subscript exactly when it
    takes the table branch with a code point outside the table. *)
Lemma handleViaTables_undefined_iff m :
  handleViaTables table m = UndefinedBehaviour <->
  State.eqb (state_ m) State.Ground && isPrintChar (to_wchar_t (currentChar m)) = false /\
  ~ (0 <= currentChar m < width table).
Proof.
  unfold handleViaTables.
  destruct (State.eqb (state_ m) State.Ground && isPrintChar (to_wchar_t (currentChar m))) eqn:Hfast.
  { split; [| intros []; discriminate].
    unfold invokeAction. destruct (actionHandler_ m); discriminate. }
  destruct (subscript table (transitions table (state_ m)) (currentChar m)) as [t|] eqn:Ht.
  - pose proof (subscript_Some _ (events table (state_ m)) _ _ Ht) as He.
    assert (Hin : 0 <= currentChar m < width table).
    { destruct (Z_le_dec 0 (currentChar m)), (Z_lt_dec (currentChar m) (width table));
        try lia; exfalso;
        assert (Hn : subscript table (transitions table (state_ m)) (currentChar m) = None)
          by (apply subscript_None; lia); congruence. }
    split; [| intros [_ Hout]; contradiction].
    destruct (negb (State.eqb t State.Undefined)).
    + unfold bind, invokeAction, modify, currentChar in *.
      destruct (actionHandler_ m) eqn:Hh; simpl; rewrite He, ?Hh; simpl; rewrite ?Hh;
        discriminate.
    + rewrite He.
      destruct (negb (Action.eqb _ Action.Undefined));
        unfold invokeAction, log;
        [destruct (actionHandler_ m) | destruct (logger_ m)]; discriminate.
  - split; [intros _ | reflexivity].
    split; [reflexivity | now apply (subscript_None (transitions table (state_ m)))].
Qed.

End TableFacts.

(** ** Entry and exit actions come in pairs on the table path *)

Section Pairing.

Context {DecoderState : Type}.
Variable decode : DecoderState -> byte -> DecoderState * utf8.Result.
Variable table : ParserTable.
Implicit Types m : @Machine DecoderState.

(** A state [string_state] whose entry action [a_in] and exit action [a_out]
    belong to no other state. *)
Variable string_state : State.t.
Variables a_in a_out : Action.t.
Hypothesis entry_only : forall t, entryEvents table t = a_in <-> t = string_state.
Hypothesis exit_only : forall s, exitEvents table s = a_out <-> s = string_state.

Lemma count_calls_app k a es es' :
  count_calls k a (es ++ es') = (count_calls k a es + count_calls k a es')%nat.
Proof. unfold count_calls. now rewrite filter_app, length_app. Qed.

Lemma count_calls_other k k' a a' c :
  k <> k' -> count_calls k a [(k', a', c)] = 0%nat.
Proof. intros H. destruct k, k'; try reflexivity; contradiction. Qed.

Lemma count_calls_same k a a' c :
  count_calls k a [(k, a', c)] = if Action.eq_dec a a' then 1%nat else 0%nat.
Proof.
  unfold count_calls, emission_eqb, Action.eqb. simpl.
  rewrite Z.eqb_refl.
  destruct k; simpl; destruct (Action.eq_dec a a'); reflexivity.
Qed.

Lemma open_calls_event es a c :
  open_calls a_in a_out (es ++ [(Event, a, c)]) = open_calls a_in a_out es.
Proof.
  unfold open_calls. rewrite !count_calls_app.
  rewrite !count_calls_other by discriminate. lia.
Qed.

Lemma open_calls_transition es s t a c :
  open_calls a_in a_out
    (es ++ [(Leave, exitEvents table s, c); (Transition, a, c);
            (Enter, entryEvents table t, c)])
  = open_calls a_in a_out es
    - (if State.eqb s string_state then 1 else 0)
    + (if State.eqb t string_state then 1 else 0).
Proof.
  unfold open_calls. rewrite !count_calls_app.
  change [(Leave, exitEvents table s, c); (Transition, a, c); (Enter, entryEvents table t, c)]
    with ([(Leave, exitEvents table s, c)] ++ [(Transition, a, c)]
          ++ [(Enter, entryEvents table t, c)]).
  rewrite !count_calls_app.
  rewrite (count_calls_other Enter Leave), (count_calls_other Enter Transition),
    (count_calls_other Leave Transition), (count_calls_other Leave Enter) by discriminate.
  rewrite !count_calls_same.
  unfold State.eqb.
  destruct (Action.eq_dec a_in (entryEvents table t)) as [Hi | Hi],
           (State.eq_dec t string_state) as [Ht | Ht],
           (Action.eq_dec a_out (exitEvents table s)) as [Ho | Ho],
           (State.eq_dec s string_state) as [Hs | Hs];
    try lia;
    try (exfalso; apply Ht; apply entry_only; now symmetry);
    try (exfalso; apply Hi; symmetry; now apply entry_only);
    try (exfalso; apply Hs; apply exit_only; now symmetry);
    try (exfalso; apply Ho; symmetry; now apply exit_only).
Qed.

Lemma handleViaTables_balanced m m' :
  actionHandler_ m = true ->
  balanced a_in a_out string_state m ->
  handleViaTables table m = Returns tt m' ->
  actionHandler_ m' = true /\ balanced a_in a_out string_state m'.
Proof.
  intros Hh Hb. unfold balanced in *.
  destruct (State.eqb (state_ m) State.Ground && isPrintChar (to_wchar_t (currentChar m))) eqn:Hfast.
  { unfold handleViaTables. rewrite Hfast. unfold invokeAction. rewrite Hh.
    intros H. injection H as <-. simpl. split; [exact Hh |].
    now rewrite open_calls_event. }
  destruct (subscript table (transitions table (state_ m)) (currentChar m)) as [t|] eqn:Ht.
  2:{ unfold handleViaTables. rewrite Hfast, Ht. discriminate. }
  destruct (State.eq_dec t State.Undefined) as [-> | Hdef].
  - unfold handleViaTables. rewrite Hfast, Ht.
    rewrite (subscript_Some table _ (events table (state_ m)) _ _ Ht). simpl.
    destruct (negb (Action.eqb _ Action.Undefined)).
    + unfold invokeAction. rewrite Hh. intros H. injection H as <-. simpl.
      split; [exact Hh |]. now rewrite open_calls_event.
    + unfold log. destruct (logger_ m); intros H; injection H as <-; simpl;
        split; assumption.
  - rewrite (handleViaTables_transition table m t Hfast Ht Hdef), Hh.
    intros H. injection H as <-. simpl. split; [exact Hh |].
    rewrite open_calls_transition, Hb. lia.
Qed.

Lemma feed_balanced b m m' :
  actionHandler_ m = true ->
  balanced a_in a_out string_state m ->
  feed decode table b m = Returns tt m' ->
  actionHandler_ m' = true /\ balanced a_in a_out string_state m'.
Proof.
  intros Hh Hb. unfold feed, bind, modify, decodeByte. simpl.
  destruct (decode (utf8Decoder_ m) b) as [d [| c | c]]; simpl.
  - intros H. injection H as <-. now split.
  - unfold bind, log, modify. simpl.
    destruct (logger_ m); apply handleViaTables_balanced; assumption.
  - unfold bind, modify. apply handleViaTables_balanced; assumption.
Qed.

Lemma feedAll_balanced bs : forall m m',
  actionHandler_ m = true ->
  balanced a_in a_out string_state m ->
  feedAll decode table bs m = Returns tt m' ->
  actionHandler_ m' = true /\ balanced a_in a_out string_state m'.
Proof.
  induction bs as [| b bs IH]; intros m m' Hh Hb; simpl.
  - intros H. injection H as <-. now split.
  - intros H. apply bind_inv in H as ([] & m1 & H1 & H2).
    destruct (feed_balanced b m m1 Hh Hb H1) as [Hh1 Hb1].
    exact (IH m1 m' Hh1 Hb1 H2).
Qed.

(** On the table path every [Enter(a_in)] has its [Leave(a_out)] as soon as
    the parser is outside [string_state]: after any fragment, the entries
    not yet matched by an exit number one in [string_state] and none in
    any other state, [Ground] among them. *)
Lemma parseFragment_balanced s m m' :
  actionHandler_ m = true ->
  balanced a_in a_out string_state m ->
  parseFragment decode table s m = Returns tt m' ->
  balanced a_in a_out string_state m'.
Proof.
  intros Hh Hb. rewrite parseFragment_feedAll.
  destruct (feedAll decode table s m) as [[] m1| |] eqn:Hf; try discriminate.
  intros H. injection H as <-.
  destruct (feedAll_balanced s m m1 Hh Hb Hf) as [_ Hb1]. exact Hb1.
Qed.

End Pairing.

(** ** The table of the spec under the table dispatcher *)

Section SpecTable.

Context {DecoderState : Type}.
Variable decode : DecoderState -> byte -> DecoderState * utf8.Result.
Implicit Types m : @Machine DecoderState.

Lemma anywhere_in_table c t : anywhere c = Some t -> 0 <= c < 0xA0 /\ isPrintChar c = false.
Proof.
  unfold anywhere, isPrintChar, isC1, includes. simpl.
  intros H.
  destruct (c =? 24) eqn:E1; [apply Z.eqb_eq in E1; subst; split; [lia | reflexivity] |].
  destruct (c =? 26) eqn:E2; [apply Z.eqb_eq in E2; subst; split; [lia | reflexivity] |].
  destruct (c =? 156) eqn:E3; [apply Z.eqb_eq in E3; subst; split; [lia | reflexivity] |].
  destruct (c =? 27) eqn:E4; [apply Z.eqb_eq in E4; subst; split; [lia | reflexivity] |].
  destruct (c =? 144) eqn:E5; [apply Z.eqb_eq in E5; subst; split; [lia | reflexivity] |].
  destruct (c =? 152) eqn:E6; [apply Z.eqb_eq in E6; subst; split; [lia | reflexivity] |].
  destruct (c =? 158) eqn:E7; [apply Z.eqb_eq in E7; subst; split; [lia | reflexivity] |].
  destruct (c =? 159) eqn:E8; [apply Z.eqb_eq in E8; subst; split; [lia | reflexivity] |].
  simpl in H.
  destruct (128 <=? c) eqn:L1, (c <=? 143) eqn:L2, (145 <=? c) eqn:L3, (c <=? 151) eqn:L4;
    simpl in H; try discriminate;
    rewrite ?Z.leb_le, ?Z.leb_gt in *;
    (split; [lia |]);
    destruct (32 <=? c) eqn:L5, (c <=? 127) eqn:L6, (127 <? c) eqn:L7, (c <=? 159) eqn:L8;
    simpl; try reflexivity;
    rewrite ?Z.leb_le, ?Z.leb_gt, ?Z.ltb_lt, ?Z.ltb_ge in *; lia.
Qed.

(** With the table of the spec, an "anywhere" code point takes
    [handleViaTables] from every defined state to its target, with the exit
    action of the state left and the entry action of the target. *)
Lemma handleViaTables_anywhere c t m :
  state_ m <> State.Undefined ->
  currentChar m = c ->
  anywhere c = Some t ->
  handleViaTables ParserTable_get m
  = Returns tt
      (if actionHandler_ m
       then set_emitted
              (emitted m ++
               [(Leave, exit_events (state_ m), c); (Transition, Action.Ignore, c);
                (Enter, entry_events t, c)])
              (set_state_ t m)
       else set_state_ t m).
Proof.
  intros Hs Hc Ha.
  destruct (anywhere_in_table c t Ha) as [Hin Hnp].
  assert (Ht : transitions ParserTable_get (state_ m) c = t).
  { simpl. rewrite Ha. destruct (state_ m); [contradiction | reflexivity ..]. }
  assert (He : events ParserTable_get (state_ m) c = Action.Ignore).
  { simpl. rewrite Ha. destruct (state_ m); [contradiction | reflexivity ..]. }
  rewrite (handleViaTables_transition ParserTable_get m t).
  - rewrite Hc, He. reflexivity.
  - rewrite Hc, (to_wchar_t_small c), Hnp by lia. apply andb_false_r.
  - rewrite Hc. unfold subscript. simpl width.
    replace ((0 <=? c) && (c <? 160)) with true
      by (symmetry; apply andb_true_iff; rewrite Z.leb_le, Z.ltb_lt; lia).
    now rewrite Ht.
  - unfold anywhere in Ha.
    destruct ((c =? 0x18) || (c =? 0x1A) || (c =? 0x9C) || includes (mkRange 0x80 0x8F) c
              || includes (mkRange 0x91 0x97) c); [injection Ha as <-; discriminate |].
    destruct (c =? 0x1B); [injection Ha as <-; discriminate |].
    destruct (c =? 0x90); [injection Ha as <-; discriminate |].
    destruct ((c =? 0x98) || (c =? 0x9E) || (c =? 0x9F));
      [injection Ha as <-; discriminate | discriminate].
Qed.

(** With the entry and exit actions of the spec, the table path pairs
    [OSC_Start] with [OSC_End] and [Hook] with [Unhook]. *)
Lemma ParserTable_get_pairs_strings s m m' :
  actionHandler_ m = true ->
  balanced Action.OSC_Start Action.OSC_End State.OSC_String m ->
  balanced Action.Hook Action.Unhook State.DCS_PassThrough m ->
  parseFragment decode ParserTable_get s m = Returns tt m' ->
  balanced Action.OSC_Start Action.OSC_End State.OSC_String m' /\
  balanced Action.Hook Action.Unhook State.DCS_PassThrough m'.
Proof.
  intros Hh Hosc Hdcs Hrun. split.
  - apply (parseFragment_balanced decode ParserTable_get State.OSC_String
             Action.OSC_Start Action.OSC_End) with (s := s) (m := m); try assumption.
    + intros t. split; [destruct t; simpl; congruence | intros ->; reflexivity].
    + intros t. split; [destruct t; simpl; congruence | intros ->; reflexivity].
  - apply (parseFragment_balanced decode ParserTable_get State.DCS_PassThrough
             Action.Hook Action.Unhook) with (s := s) (m := m); try assumption.
    + intros t. split; [destruct t; simpl; congruence | intros ->; reflexivity].
    + intros t. split; [destruct t; simpl; congruence | intros ->; reflexivity].
Qed.

End SpecTable.

(** The rows of [CSI_Param] in the table of the spec, as [handleViaTables]
    applies them. *)
Example table_CSI_Param :
  let m c := set_currentChar_ c (set_state_ State.CSI_Param (construct true false tt)) in
  let run c := handleViaTables ParserTable_get (m c) in
  (state_after (run 0x3A) = Some State.CSI_Ignore) /\
  (state_after (run 0x20) = Some State.CSI_Intermediate /\
   emitted_after (run 0x20)
   = Some [(Leave, Action.Ignore, 0x20); (Transition, Action.Collect, 0x20);
           (Enter, Action.Ignore, 0x20)]) /\
  (state_after (run 0x6D) = Some State.Ground /\
   emitted_after (run 0x6D)
   = Some [(Leave, Action.Ignore, 0x6D); (Transition, Action.CSI_Dispatch, 0x6D);
           (Enter, Action.Ignore, 0x6D)]).
Proof. repeat split; reflexivity. Qed.

(** Scenario S3 on the table path, the decoder reporting each ASCII byte as
    its own code point. *)
Example table_S3 :
  let o := parseFragment scripted ParserTable_get
             [x1b; x5b; x31; x3b; x33; x31; x6d]
             (construct true false
                (map utf8.Success [0x1B; 0x5B; 0x31; 0x3B; 0x33; 0x31; 0x6D])) in
  state_after o = Some State.Ground /\
  emitted_after o
  = Some [(Leave, Action.Ignore, 0x1B); (Transition, Action.Ignore, 0x1B);
          (Enter, Action.Clear, 0x1B);
          (Leave, Action.Ignore, 0x5B); (Transition, Action.Ignore, 0x5B);
          (Enter, Action.Clear, 0x5B);
          (Leave, Action.Ignore, 0x31); (Transition, Action.Param, 0x31);
          (Enter, Action.Ignore, 0x31);
          (Event, Action.Param, 0x3B); (Event, Action.Param, 0x33);
          (Event, Action.Param, 0x31);
          (Leave, Action.Ignore, 0x6D); (Transition, Action.CSI_Dispatch, 0x6D);
          (Enter, Action.Ignore, 0x6D)].
Proof. split; reflexivity. Qed.

(** Scenario S4 on the table path: the OSC string ends with [Leave(OSC_End)]
    when ESC arrives. *)
Example table_S4 :
  let o := parseFragment scripted ParserTable_get
             [x1b; x5d; x30; x3b; x58; x1b; x5c]
             (construct true false
                (map utf8.Success [0x1B; 0x5D; 0x30; 0x3B; 0x58; 0x1B; 0x5C])) in
  state_after o = Some State.Ground /\
  option_map (count_calls Enter Action.OSC_Start) (emitted_after o) = Some 1%nat /\
  option_map (count_calls Leave Action.OSC_End) (emitted_after o) = Some 1%nat.
Proof. repeat split; reflexivity. Qed.

(** ** Code points outside the table *)

(** C5 (the code as written).  [handleViaTables] skips the table only in
    [Ground]; in [Escape] the code point U+20AC is used as a subscript of
    [transitions], past the end of the row.  The bytes 1B E2 82 AC, decoded
    as ESC and U+20AC, bring the parser there. *)
Theorem handleViaTables_subscript_out_of_range :
  let m := set_currentChar_ 0x20AC (set_state_ State.Escape (construct true false tt)) in
  State.eqb (state_ m) State.Ground && isPrintChar (currentChar m) = false /\
  State.eqb (state_ m) State.Ground && isPrintChar (to_wchar_t (currentChar m)) = false /\
  ~ (0 <= currentChar m < width ParserTable_get) /\
  handleViaTables ParserTable_get m = UndefinedBehaviour /\
  state_after
    (parseFragment scripted ParserTable_get [x1b]
       (construct true false [utf8.Success 0x1B])) = Some State.Escape.
Proof.
  repeat split; try reflexivity.
  simpl. unfold currentChar. simpl. lia.
Qed.

(** C6 (the code as written).  On the bytes 1B E2 82 AC, decoded as ESC,
    [Incomplete], [Incomplete] and U+20AC, [parseFragment] does not return:
    the fourth turn of the loop reads [transitions] outside its bounds, and
    the cursor has then advanced three times. *)
Theorem parseFragment_undefined_on_ESC_euro :
  let script := [utf8.Success 0x1B; utf8.Incomplete; utf8.Incomplete; utf8.Success 0x20AC] in
  parseFragment scripted ParserTable_get [x1b; xe2; x82; xac] (construct true false script)
  = UndefinedBehaviour /\
  cursor_after
    (parseFragment scripted ParserTable_get [x1b; xe2; x82] (construct true false script))
  = Some (3%nat, 3%nat).
Proof. split; reflexivity. Qed.

(** ** The fragment loop *)

Ltac fields :=
  cbn [state_ utf8Decoder_ currentChar_ begin_ end_ actionHandler_ logger_ traceLog_
       fragment emitted logged traced currentChar
       set_state_ set_utf8Decoder_ set_currentChar_ set_begin_ set_span
       set_actionHandler_ set_logger_ set_emitted set_logged set_traced].

Section ParseFacts.

Context {DecoderState : Type}.
Variable decode : DecoderState -> byte -> DecoderState * utf8.Result.
Variable table : ParserTable.
Implicit Types m : @Machine DecoderState.

(** The fuel that [parse] gives its loop is never used up. *)
Lemma parseFragment_fuel s : fuel_free (parseFragment decode table s).
Proof.
  intros m. rewrite parseFragment_feedAll.
  pose proof (fuel_free_feedAll decode table s m) as H.
  destruct (feedAll decode table s m); [discriminate | discriminate | contradiction].
Qed.

(** More fuel than the bytes that remain changes nothing. *)
Lemma parse_loop_enough fuel m :
  end_ m = List.length (fragment m) ->
  (begin_ m <= end_ m)%nat ->
  (end_ m - begin_ m <= fuel)%nat ->
  parse_loop decode table fuel m = parse decode table m.
Proof.
  intros He Hle Hfuel. unfold parse.
  rewrite (parse_loop_feedAll decode table (skipn (begin_ m) (fragment m)) fuel m);
    try rewrite (parse_loop_feedAll decode table (skipn (begin_ m) (fragment m))
                   (end_ m - begin_ m) m);
    try reflexivity; try assumption;
    rewrite length_skipn; lia.
Qed.

(** When [parseFragment] returns, the cursor has gone over the whole
    fragment. *)
Lemma parseFragment_cursor s m m' :
  parseFragment decode table s m = Returns tt m' ->
  begin_ m' = List.length s /\ end_ m' = List.length s /\ fragment m' = s.
Proof.
  rewrite parseFragment_feedAll.
  destruct (feedAll decode table s m) as [[] m1| |]; try discriminate.
  intros H. injection H as <-. now repeat split.
Qed.

(** Each turn of the loop that comes to its end has moved the cursor by
    one byte, whatever the decoder reported. *)
Lemma iteration_advances_once m m' :
  iteration decode table m = Returns tt m' -> begin_ m' = S (begin_ m).
Proof.
  destruct (nth_error (fragment m) (begin_ m)) as [b|] eqn:Hb.
  - rewrite (iteration_feed decode table m b Hb). intros H.
    apply bind_inv in H as ([] & m1 & H1 & H2).
    apply feed_span in H1. unfold span in H1. injection H1 as _ Hbg _.
    unfold advance, modify in H2. injection H2 as <-. simpl. now rewrite Hbg.
  - unfold iteration, bind, modify, currentByte. simpl. rewrite Hb. discriminate.
Qed.

(** A decoder that delivers only code points of the table never takes the
    parser outside it: every fragment is then parsed to its end. *)
Lemma parseFragment_returns_in_range s m :
  (forall d b c, delivered (snd (decode d b)) = Some c -> 0 <= c < width table) ->
  exists m', parseFragment decode table s m = Returns tt m' /\
             begin_ m' = List.length s /\ end_ m' = List.length s.
Proof.
  intros Hrange.
  assert (Hfeed : forall bs m0, exists m1, feedAll decode table bs m0 = Returns tt m1).
  { induction bs as [| b bs IH]; intros m0; simpl.
    - now exists m0.
    - assert (H1 : exists m1, feed decode table b m0 = Returns tt m1).
      { unfold feed, bind, modify, decodeByte. simpl.
        specialize (Hrange (utf8Decoder_ m0) b).
        destruct (decode (utf8Decoder_ m0) b) as [d r]. simpl in Hrange.
        assert (Hh : forall c m2, currentChar m2 = c -> 0 <= c < width table ->
                      exists m3, handleViaTables table m2 = Returns tt m3).
        { intros c m2 Hc Hin.
          destruct (handleViaTables table m2) as [[] m3| |] eqn:Hrun.
          - now exists m3.
          - apply handleViaTables_undefined_iff in Hrun as [_ Hout].
            rewrite Hc in Hout. contradiction.
          - exfalso. exact (fuel_free_handleViaTables table m2 Hrun). }
        destruct r as [| c | c]; simpl.
        - eexists; reflexivity.
        - unfold bind, log, modify. simpl.
          destruct (logger_ m0); apply (Hh c); try reflexivity; now apply Hrange.
        - unfold bind, modify. apply (Hh c); try reflexivity; now apply Hrange. }
      destruct H1 as [m1 H1]. unfold bind. rewrite H1. apply IH. }
  destruct (Hfeed s m) as [m1 H1].
  rewrite parseFragment_feedAll, H1. simpl.
  eexists. split; [reflexivity |]. now split.
Qed.

(** The fast path of [handleViaTables] as one turn of the loop sees it: in
    [Ground], a byte for which the decoder delivers a code point [c] that is
    printable as a [wchar_t] is answered with the single call [Event/Print] carrying [c]; the
    state stays [Ground], the table is not consulted, and nothing is logged
    but the diagnostic of an [Invalid] outcome. *)
Lemma feed_Ground_print b m d r c :
  decode (utf8Decoder_ m) b = (d, r) ->
  delivered r = Some c ->
  isPrintChar (to_wchar_t c) = true ->
  state_ m = State.Ground ->
  actionHandler_ m = true ->
  exists m',
    feed decode table b m = Returns tt m' /\
    state_ m' = State.Ground /\
    utf8Decoder_ m' = d /\
    actionHandler_ m' = true /\
    emitted m' = emitted m ++ [(Event, Action.Print, c)] /\
    logged m'
    = logged m ++ (match r with
                   | utf8.Invalid _ => if logger_ m then [InvalidUTF8] else []
                   | _ => []
                   end) /\
    logger_ m' = logger_ m.
Proof.
  intros Hdec Hdel Hprint Hs Hh.
  unfold feed, bind, modify, decodeByte. fields.
  rewrite Hdec.
  destruct r as [| c' | c']; simpl in Hdel; try discriminate;
    injection Hdel as ->.
  - unfold visit, bind, log, modify. fields.
    destruct (logger_ m) eqn:Hl; unfold handleViaTables; fields;
      rewrite Hs, Hprint; unfold invokeAction; fields; rewrite Hh;
      eexists; (split; [reflexivity |]); fields;
      rewrite ?app_nil_r; repeat split; assumption.
  - unfold visit, bind, modify, handleViaTables. fields.
    rewrite Hs, Hprint. unfold invokeAction. fields. rewrite Hh.
    eexists; (split; [reflexivity |]). fields.
    rewrite ?app_nil_r; repeat split; assumption.
Qed.

End ParseFacts.

(** C7.  Streaming equivalence: for every decoder, table, split [s1 ++ s2]
    and parser, [parseFragment s1] followed by [parseFragment s2] ends like
    [parseFragment (s1 ++ s2)]: the same outcome and, when the calls return,
    the same state, decoder state and current character, and the same calls
    to the action handler and to the logger.  Only the cursor and the
    fragment it points into differ. *)
Theorem parseFragment_streaming {DecoderState : Type}
  (decode : DecoderState -> byte -> DecoderState * utf8.Result) (table : ParserTable)
  (s1 s2 : list byte) (m : @Machine DecoderState) :
  outcome_map forget_span
    ((parseFragment decode table s1 ;; parseFragment decode table s2) m)
  = outcome_map forget_span (parseFragment decode table (s1 ++ s2) m).
Proof.
  rewrite (parseFragment_feedAll decode table (s1 ++ s2)), feedAll_app.
  unfold bind. rewrite (parseFragment_feedAll decode table s1).
  destruct (feedAll decode table s1 m) as [[] m1| |]; try reflexivity.
  simpl. rewrite parseFragment_feedAll, feedAll_set_span.
  destruct (feedAll decode table s2 m1); reflexivity.
Qed.

(** C9.  Logger noninterference: for every decoder, table, fragment and
    parser, installing or removing the logger (whatever it has received so
    far) changes nothing but the record of the logger: the outcome, the
    state, the decoder state, the cursor and the calls to the action handler
    are the same. *)
Theorem logger_noninterference {DecoderState : Type}
  (decode : DecoderState -> byte -> DecoderState * utf8.Result) (table : ParserTable)
  (s : list byte) (m : @Machine DecoderState) (logger : bool) (ls : list LogEvent) :
  outcome_map forget_log
    (parseFragment decode table s (set_logged ls (set_logger_ logger m)))
  = outcome_map forget_log (parseFragment decode table s m).
Proof.
  pose proof (respects_parseFragment decode table forget_log s (or_introl eq_refl)) as Hr.
  rewrite (Hr (set_logged ls (set_logger_ logger m))), (Hr m). reflexivity.
Qed.

(** A parser whose action handler is empty runs like the same parser with a
    handler: the same outcome, the read outside the table included, and,
    when [parseFragment] returns, the same state, decoder state, cursor and
    log; it then has made no call to the handler, the record of calls is as
    it was before, and the cursor is at the end of the fragment. *)
Lemma null_handler_same_evolution {DecoderState : Type}
  (decode : DecoderState -> byte -> DecoderState * utf8.Result) (table : ParserTable)
  (s : list byte) (m : @Machine DecoderState) :
  outcome_map forget_handler (parseFragment decode table s (set_actionHandler_ false m))
  = outcome_map forget_handler (parseFragment decode table s (set_actionHandler_ true m)) /\
  match parseFragment decode table s (set_actionHandler_ false m) with
  | Returns _ m' =>
      emitted m' = emitted m /\ actionHandler_ m' = false /\
      begin_ m' = List.length s /\ end_ m' = List.length s
  | UndefinedBehaviour => True
  | OutOfFuel => False
  end.
Proof.
  split.
  - pose proof (respects_parseFragment decode table forget_handler s (or_intror eq_refl)) as Hr.
    rewrite (Hr (set_actionHandler_ false m)), (Hr (set_actionHandler_ true m)). reflexivity.
  - pose proof (parseFragment_fuel decode table s (set_actionHandler_ false m)) as Hfuel.
    rewrite parseFragment_feedAll in *.
    pose proof (feedAll_silence decode table s (set_actionHandler_ false m)) as Hq.
    destruct (feedAll decode table s (set_actionHandler_ false m)) as [u m1| |];
      simpl; [| exact I | now apply Hfuel].
    specialize (Hq u m1 eq_refl). unfold silence in Hq. simpl in Hq.
    destruct (actionHandler_ m1); [discriminate |].
    injection Hq as Hq. now repeat split.
Qed.

(** * Further properties of the code *)

(** ** The classifier *)

Ltac settle_comparisons :=
  repeat match goal with
         | |- context [?a <=? ?b] =>
             first [ replace (a <=? b) with true by (symmetry; apply Z.leb_le; lia)
                   | replace (a <=? b) with false by (symmetry; apply Z.leb_gt; lia) ]
         | |- context [?a <? ?b] =>
             first [ replace (a <? b) with true by (symmetry; apply Z.ltb_lt; lia)
                   | replace (a <? b) with false by (symmetry; apply Z.ltb_ge; lia) ]
         | |- context [?a =? ?b] =>
             first [ replace (a =? b) with true by (symmetry; apply Z.eqb_eq; lia)
                   | replace (a =? b) with false by (symmetry; apply Z.eqb_neq; lia) ]
         end.

Lemma code_point_intervals (c : Z) :
  c < 0 \/ 0 <= c <= 0x17 \/ c = 0x18 \/ c = 0x19 \/ c = 0x1A \/ c = 0x1B \/
  0x1C <= c <= 0x1F \/ 0x20 <= c <= 0x7F \/ 0x80 <= c <= 0x9F \/ 0xA0 <= c.
Proof. lia. Qed.

(** X1.  The classifier splits the code points into four classes: every
    non-negative code point is in exactly one of execute, the three controls
    CAN, SUB and ESC (0x18, 0x1A, 0x1B) that [isExecuteChar] leaves out,
    printable, and C1; a negative [wchar_t] is in none. *)
Theorem classifier_partition (c : Z) :
  count_occ bool_dec
    [isExecuteChar c; (c =? 0x18) || (c =? 0x1A) || (c =? 0x1B); isPrintChar c; isC1 c] true
  = if 0 <=? c then 1%nat else 0%nat.
Proof.
  unfold isExecuteChar, isPrintChar, isC1, includes. cbn [first last].
  destruct (code_point_intervals c)
    as [H | [H | [H | [H | [H | [H | [H | [H | [H | H]]]]]]]]];
    settle_comparisons; reflexivity.
Qed.

(** X2.  [isPrintChar] holds exactly for 0x20-0x7F (DEL included) and for
    everything from 0xA0 upwards, with no upper bound; a parameter character
    is printable. *)
Theorem isPrintChar_iff (c : Z) :
  (isPrintChar c = true <-> 0x20 <= c <= 0x7F \/ 0xA0 <= c) /\
  implb (isParamChar c) (isPrintChar c) = true.
Proof.
  unfold isPrintChar, isParamChar, isC1, includes. cbn [first last].
  destruct (code_point_intervals c)
    as [H | [H | [H | [H | [H | [H | [H | [H | [H | H]]]]]]]]];
    settle_comparisons; cbn;
    (split; [split; [intros E; try discriminate; lia | intros E; try reflexivity; lia] |]);
    try reflexivity;
    destruct ((48 <=? c) && (c <=? 57) || (c =? 59)); reflexivity.
Qed.

(** ** Names and iteration (Parser.h) *)

(** X3.  The three [to_string] functions give every enumerator a name of its
    own: two states, two action classes or two actions with the same name are
    the same, and no enumerator is named by the fallback "?". *)
Theorem to_string_injective :
  (forall s1 s2, to_string_State s1 = to_string_State s2 -> s1 = s2) /\
  (forall k1 k2, to_string_ActionClass k1 = to_string_ActionClass k2 -> k1 = k2) /\
  (forall a1 a2, to_string_Action a1 = to_string_Action a2 -> a1 = a2) /\
  (forall s, to_string_State s <> "?"%string) /\
  (forall k, to_string_ActionClass k <> "?"%string) /\
  (forall a, to_string_Action a <> "?"%string).
Proof.
  repeat split.
  - intros s1 s2; destruct s1, s2; simpl; intros H; try reflexivity; discriminate H.
  - intros k1 k2; destruct k1, k2; simpl; intros H; try reflexivity; discriminate H.
  - intros a1 a2; destruct a1, a2; simpl; intros H; try reflexivity; discriminate H.
  - intros s; destruct s; discriminate.
  - intros k; destruct k; discriminate.
  - intros a; destruct a; discriminate.
Qed.

(** X4.  [operator++] takes each state to the next enumerator and
    [SOS_PM_APC_String] to the value 15, one past the enumeration, where it
    stays; the value remains a [uint8_t].  So the loop from [min()] to
    [max()] ends, after the 14 states other than [Undefined], one less than
    [size()], each visited once in the order of the enumeration. *)
Theorem State_increment_iterates (fuel : nat) :
  (14 <= fuel)%nat ->
  (forall s, s <> State.SOS_PM_APC_String ->
     exists s', State_increment (State.index s) = State.index s' /\
                State.index s' = State.index s + 1) /\
  State_increment (State.index State.SOS_PM_APC_String) = State.size /\
  (forall v, State.size <= v < 256 -> State_increment v = v) /\
  (forall v, 0 <= v < 256 -> 0 <= State_increment v < 256) /\
  State_range fuel (State.index State_min)
  = Some (map State.index
            [State.Ground; State.Escape; State.EscapeIntermediate; State.CSI_Entry;
             State.CSI_Param; State.CSI_Intermediate; State.CSI_Ignore; State.DCS_Entry;
             State.DCS_Param; State.DCS_Intermediate; State.DCS_PassThrough;
             State.DCS_Ignore; State.OSC_String; State.SOS_PM_APC_String]).
Proof.
  intros Hfuel. repeat split.
  - intros s Hs.
    destruct s; try contradiction;
      match goal with
      | |- exists s', State_increment (State.index ?s) = _ /\ _ =>
          let v := eval compute in (State.index s + 1) in
          match v with
          | 1 => exists State.Ground | 2 => exists State.Escape
          | 3 => exists State.EscapeIntermediate | 4 => exists State.CSI_Entry
          | 5 => exists State.CSI_Param | 6 => exists State.CSI_Intermediate
          | 7 => exists State.CSI_Ignore | 8 => exists State.DCS_Entry
          | 9 => exists State.DCS_Param | 10 => exists State.DCS_Intermediate
          | 11 => exists State.DCS_PassThrough | 12 => exists State.DCS_Ignore
          | 13 => exists State.OSC_String | 14 => exists State.SOS_PM_APC_String
          end
      end; split; reflexivity.
  - intros v Hv. unfold State_increment, State.size in *. simpl.
    replace (v <=? 14) with false by (symmetry; apply Z.leb_gt; lia). reflexivity.
  - unfold State_increment. destruct (v <=? State.index State.SOS_PM_APC_String);
      [apply Z.mod_pos_bound; lia | lia].
  - unfold State_increment. destruct (v <=? State.index State.SOS_PM_APC_String);
      [apply Z.mod_pos_bound; lia | lia].
  - do 14 (destruct fuel as [| fuel]; [lia |]). destruct fuel; reflexivity.
Qed.

Lemma State_increment_iterates_witness :
  State_range 14 (State.index State_min)
  = Some (map State.index
            [State.Ground; State.Escape; State.EscapeIntermediate; State.CSI_Entry;
             State.CSI_Param; State.CSI_Intermediate; State.CSI_Ignore; State.DCS_Entry;
             State.DCS_Param; State.DCS_Intermediate; State.DCS_PassThrough;
             State.DCS_Ignore; State.OSC_String; State.SOS_PM_APC_String]).
Proof.
  apply (State_increment_iterates 14). apply le_n.
Defined.

(** ** One call of the table dispatcher, one turn of the loop *)

Section TurnFacts.

Context {DecoderState : Type}.
Variable decode : DecoderState -> byte -> DecoderState * utf8.Result.
Variable table : ParserTable.
Implicit Types m : @Machine DecoderState.

Lemma dispatch_effect_intro m m' (new : list Emission) (news : list LogEvent) :
  utf8Decoder_ m' = utf8Decoder_ m ->
  currentChar_ m' = currentChar_ m ->
  actionHandler_ m' = actionHandler_ m ->
  logger_ m' = logger_ m ->
  (state_ m' = state_ m \/ state_ m' <> State.Undefined) ->
  emitted m' = emitted m ++ new ->
  (List.length new <= 3)%nat ->
  Forall (fun e => snd e = currentChar_ m) new ->
  logged m' = logged m ++ news ->
  ~ In InvalidUTF8 news ->
  (logger_ m = false -> news = []) ->
  dispatch_effect m m'.
Proof.
  intros. unfold dispatch_effect. repeat (split; [assumption |]).
  split; [exists new | exists news]; now repeat split.
Qed.

Ltac effect_side :=
  fields;
  first [ reflexivity
        | now left
        | now right
        | now rewrite app_nil_r
        | simpl; lia
        | now repeat constructor
        | intros [? | []]; discriminate
        | intros ?; congruence
        | congruence
        | simpl; tauto ].

Lemma dispatch_effect_invokeAction k a m m' :
  invokeAction k a m = Returns tt m' -> dispatch_effect m m'.
Proof.
  unfold invokeAction. destruct (actionHandler_ m) eqn:Hh; intros H; injection H as <-.
  - apply (dispatch_effect_intro _ _ [(k, a, currentChar_ m)] []); effect_side.
  - apply (dispatch_effect_intro _ _ [] []); effect_side.
Qed.

Lemma handleViaTables_effect m m' :
  handleViaTables table m = Returns tt m' -> dispatch_effect m m'.
Proof.
  destruct (State.eqb (state_ m) State.Ground && isPrintChar (to_wchar_t (currentChar m))) eqn:Hfast.
  { unfold handleViaTables. rewrite Hfast. apply dispatch_effect_invokeAction. }
  destruct (subscript table (transitions table (state_ m)) (currentChar m)) as [t|] eqn:Ht.
  2:{ unfold handleViaTables. rewrite Hfast, Ht. discriminate. }
  destruct (State.eq_dec t State.Undefined) as [-> | Hdef].
  - unfold handleViaTables. rewrite Hfast, Ht.
    rewrite (subscript_Some table _ (events table (state_ m)) _ _ Ht). simpl.
    destruct (negb (Action.eqb _ Action.Undefined)).
    + apply dispatch_effect_invokeAction.
    + unfold log. destruct (logger_ m) eqn:Hl; intros H; injection H as <-.
      * apply (dispatch_effect_intro _ _ [] [UnknownAction (state_ m) (currentChar m)]);
          effect_side.
      * apply (dispatch_effect_intro _ _ [] []); effect_side.
  - rewrite (handleViaTables_transition table m t Hfast Ht Hdef).
    intros H. injection H as <-.
    destruct (actionHandler_ m) eqn:Hh.
    + apply (dispatch_effect_intro _ _
               [(Leave, exitEvents table (state_ m), currentChar m);
                (Transition, events table (state_ m) (currentChar m), currentChar m);
                (Enter, entryEvents table t, currentChar m)] []); effect_side.
    + apply (dispatch_effect_intro _ _ [] []); effect_side.
Qed.

Lemma feed_Incomplete b m d :
  decode (utf8Decoder_ m) b = (d, utf8.Incomplete) ->
  feed decode table b m = Returns tt (set_utf8Decoder_ d (set_currentChar_ 0 m)).
Proof.
  intros Hdec. unfold feed, bind, modify, decodeByte. fields. now rewrite Hdec.
Qed.

Lemma turn_effect_intro d r m m' (new : list Emission) (news : list LogEvent) :
  utf8Decoder_ m' = d ->
  currentChar_ m' = match delivered r with Some c => c | None => 0 end ->
  actionHandler_ m' = actionHandler_ m ->
  logger_ m' = logger_ m ->
  (state_ m' = state_ m \/ state_ m' <> State.Undefined) ->
  emitted m' = emitted m ++ new ->
  (List.length new <= 3 * List.length (codepoints [r]))%nat ->
  Forall (fun e => delivered r = Some (snd e)) new ->
  logged m' = logged m ++ news ->
  count_occ LogEvent_eq_dec news InvalidUTF8
  = (if is_Invalid r && logger_ m then 1%nat else 0%nat) ->
  (logger_ m = false -> news = []) ->
  turn_effect d r m m'.
Proof.
  intros. unfold turn_effect. repeat (split; [assumption |]).
  split; [exists new | exists news]; now repeat split.
Qed.

(** A code point handed to [handleViaTables] in the machine [m0], which is
    [m] after the decoder has moved and the current character is set. *)
Lemma turn_effect_dispatch d r c m m0 m' (pre : list LogEvent) :
  delivered r = Some c ->
  utf8Decoder_ m0 = d -> currentChar_ m0 = c ->
  actionHandler_ m0 = actionHandler_ m -> logger_ m0 = logger_ m ->
  state_ m0 = state_ m -> emitted m0 = emitted m ->
  logged m0 = logged m ++ pre ->
  pre = (if is_Invalid r && logger_ m then [InvalidUTF8] else []) ->
  handleViaTables table m0 = Returns tt m' ->
  turn_effect d r m m'.
Proof.
  intros Hdel Hd0 Hc0 Hh0 Hl0 Hs0 He0 Hg0 Hpre H.
  apply handleViaTables_effect in H.
  destruct H as (Hd & Hc & Hh & Hlg & Hs & (new & He & Hn & Hf) & (news & Hl1 & Hl2 & Hl3)).
  apply (turn_effect_intro d r m m' new (pre ++ news)).
  - congruence.
  - rewrite Hdel. congruence.
  - congruence.
  - congruence.
  - rewrite <- Hs0. exact Hs.
  - congruence.
  - simpl. rewrite Hdel. simpl. lia.
  - eapply Forall_impl; [| exact Hf]. intros e E. simpl in E. rewrite Hdel. congruence.
  - rewrite Hl1, Hg0, app_assoc. reflexivity.
  - rewrite count_occ_app, (proj1 (count_occ_not_In LogEvent_eq_dec news InvalidUTF8) Hl2).
    rewrite Hpre. destruct (is_Invalid r && logger_ m); simpl; [| reflexivity].
    destruct (LogEvent_eq_dec InvalidUTF8 InvalidUTF8); [reflexivity | contradiction].
  - intros Hoff. rewrite Hpre, Hoff, andb_false_r. simpl. apply Hl3. congruence.
Qed.

Lemma feed_effect b m m' :
  feed decode table b m = Returns tt m' ->
  turn_effect (fst (decode (utf8Decoder_ m) b)) (snd (decode (utf8Decoder_ m) b)) m m'.
Proof.
  unfold feed, bind, modify, decodeByte. fields.
  destruct (decode (utf8Decoder_ m) b) as [d r]. cbn [fst snd].
  destruct r as [| c | c]; cbn [visit].
  - intros H. injection H as <-.
    apply (turn_effect_intro _ _ _ _ [] []); fields; cbn;
      first [reflexivity | now left | now rewrite app_nil_r | lia | constructor | idtac].
  - unfold bind, log, modify. fields.
    destruct (logger_ m) eqn:Hl; intros H.
    + apply (turn_effect_dispatch d (utf8.Invalid c) c m _ m' [InvalidUTF8]) in H;
        fields; try reflexivity; try assumption.
      cbn. now rewrite Hl.
    + apply (turn_effect_dispatch d (utf8.Invalid c) c m _ m' []) in H;
        fields; try reflexivity; try assumption.
      * now rewrite app_nil_r.
      * cbn. now rewrite Hl.
  - unfold bind, modify. intros H.
    apply (turn_effect_dispatch d (utf8.Success c) c m _ m' []) in H;
      fields; try reflexivity; try assumption.
    now rewrite app_nil_r.
Qed.

End TurnFacts.

(** ** A whole fragment on the table path *)

Section FragmentEffects.

Context {DecoderState : Type}.
Variable decode : DecoderState -> byte -> DecoderState * utf8.Result.
Variable table : ParserTable.
Implicit Types m : @Machine DecoderState.

Lemma codepoints_app rs1 rs2 : codepoints (rs1 ++ rs2) = codepoints rs1 ++ codepoints rs2.
Proof.
  induction rs1 as [| r rs1 IH]; simpl; [reflexivity |].
  destruct (delivered r); simpl; now rewrite IH.
Qed.

Lemma feedAll_effect s : forall m m',
  feedAll decode table s m = Returns tt m' ->
  fragment_effect (fst (decodeAll decode (utf8Decoder_ m) s))
                  (snd (decodeAll decode (utf8Decoder_ m) s)) m m'.
Proof.
  induction s as [| b s IH]; intros m m' H.
  - injection H as <-. unfold fragment_effect. simpl.
    repeat (split; [reflexivity || now left |]).
    split; [exists [] | exists []]; rewrite app_nil_r; repeat split;
      try constructor; try (now destruct (logger_ m)).
  - simpl in H. apply bind_inv in H as ([] & m1 & H1 & H2).
    apply feed_effect in H1. apply IH in H2.
    simpl decodeAll.
    destruct (decode (utf8Decoder_ m) b) as [d r] eqn:Hdec. cbn [fst snd] in H1.
    destruct H1 as (Hd & _ & Hh & Hlg & Hs & (new & He & Hn & Hf) & (news & Hl1 & Hl2 & Hl3)).
    rewrite Hd in H2.
    destruct (decodeAll decode d s) as [d2 rs] eqn:Hall. cbn [fst snd] in *.
    destruct H2 as (Hd' & Hh' & Hlg' & Hs' & (new' & He' & Hn' & Hf')
                    & (news' & Hl1' & Hl2' & Hl3')).
    unfold fragment_effect.
    split; [exact Hd' |]. split; [congruence |]. split; [congruence |].
    split.
    { destruct Hs' as [E | E]; [| now right].
      rewrite E. exact Hs. }
    split.
    + exists (new ++ new'). split; [rewrite He', He, app_assoc; reflexivity |].
      change (r :: rs) with ([r] ++ rs). rewrite codepoints_app, !length_app.
      split; [lia |].
      apply Forall_app. split.
      * eapply Forall_impl; [| exact Hf]. intros e E. apply in_or_app. left.
        simpl. rewrite E. now left.
      * eapply Forall_impl; [| exact Hf']. intros e E. apply in_or_app. now right.
    + exists (news ++ news'). split; [rewrite Hl1', Hl1, app_assoc; reflexivity |].
      split.
      * rewrite count_occ_app, Hl2, Hl2', Hlg. simpl.
        destruct (logger_ m), r; simpl; reflexivity.
      * intros Hoff. rewrite (Hl3 Hoff), (Hl3' (eq_trans Hlg Hoff)). reflexivity.
Qed.

Lemma parseFragment_Returns s m m' :
  parseFragment decode table s m = Returns tt m' ->
  exists m1, feedAll decode table s m = Returns tt m1 /\
             m' = set_span s (List.length s) (List.length s) m1.
Proof.
  rewrite parseFragment_feedAll.
  destruct (feedAll decode table s m) as [[] m1| |]; try discriminate.
  intros H. injection H as <-. now exists m1.
Qed.

(** X5.  The state of the parser is never [Undefined] on the table path,
    whatever the table holds: [handleViaTables] assigns [state_] only behind
    the test [t != State::Undefined], so a parser in a defined state is in a
    defined state after every fragment it returns from. *)
Theorem parseFragment_state_defined s m m' :
  state_ m <> State.Undefined ->
  parseFragment decode table s m = Returns tt m' ->
  state_ m' <> State.Undefined.
Proof.
  intros Hs H. apply parseFragment_Returns in H as (m1 & H & ->).
  apply feedAll_effect in H. destruct H as (_ & _ & _ & [E | E] & _); fields;
    [now rewrite E | exact E].
Qed.

(** X6.  Every byte of the fragment is handed to the decoder once and in
    order: when [parseFragment] returns, the decoder is in the state that
    decoding the bytes alone leads to, whatever the state machine, the table
    and the callbacks did in between. *)
Theorem parseFragment_decodes_every_byte s m m' :
  parseFragment decode table s m = Returns tt m' ->
  utf8Decoder_ m' = fst (decodeAll decode (utf8Decoder_ m) s).
Proof.
  intros H. apply parseFragment_Returns in H as (m1 & H & ->).
  apply feedAll_effect in H. destruct H as (E & _). exact E.
Qed.

(** X7.  Output is bounded by input: a fragment adds to the calls of the
    action handler at most three calls for each code point the decoder
    delivers, hence at most three for each byte, and every call carries one
    of the delivered code points; earlier calls are kept. *)
Theorem parseFragment_emissions_bounded s m m' :
  parseFragment decode table s m = Returns tt m' ->
  exists new,
    emitted m' = emitted m ++ new /\
    (List.length new
     <= 3 * List.length (codepoints (snd (decodeAll decode (utf8Decoder_ m) s))))%nat /\
    (List.length new <= 3 * List.length s)%nat /\
    Forall (fun e => In (snd e) (codepoints (snd (decodeAll decode (utf8Decoder_ m) s)))) new.
Proof.
  intros H. apply parseFragment_Returns in H as (m1 & H & ->).
  apply feedAll_effect in H. destruct H as (_ & _ & _ & _ & (new & He & Hn & Hf) & _).
  exists new. fields. repeat split; try assumption.
  assert (Hlen : forall d bs,
             (List.length (codepoints (snd (decodeAll decode d bs))) <= List.length bs)%nat).
  { intros d bs. revert d. induction bs as [| b bs IH]; intros d; simpl; [lia |].
    destruct (decode d b) as [d1 r]. specialize (IH d1).
    destruct (decodeAll decode d1 bs) as [d2 rs]. simpl in *.
    destruct (delivered r); simpl; lia. }
  specialize (Hlen (utf8Decoder_ m) s). lia.
Qed.

(** X8.  The diagnostic "Invalid UTF8!" is logged once for each [Invalid]
    outcome of the decoder when a logger is installed; with no logger the
    record of the logger is left as it was. *)
Theorem parseFragment_diagnostics s m m' :
  parseFragment decode table s m = Returns tt m' ->
  exists news,
    logged m' = logged m ++ news /\
    count_occ LogEvent_eq_dec news InvalidUTF8
    = (if logger_ m
       then List.length (filter is_Invalid (snd (decodeAll decode (utf8Decoder_ m) s)))
       else 0%nat) /\
    (logger_ m = false -> news = []).
Proof.
  intros H. apply parseFragment_Returns in H as (m1 & H & ->).
  apply feedAll_effect in H. destruct H as (_ & _ & _ & _ & _ & Hlog). exact Hlog.
Qed.

(** X9.  Bytes for which the decoder reports [Incomplete] are silent: a
    fragment made of such bytes only (the empty fragment among them) makes no
    call to the handler or the logger and keeps the state; it moves the
    decoder, and leaves the current character at 0 unless it is empty. *)
Theorem parseFragment_Incomplete_silent s m :
  Forall (fun r => r = utf8.Incomplete) (snd (decodeAll decode (utf8Decoder_ m) s)) ->
  exists m',
    parseFragment decode table s m = Returns tt m' /\
    state_ m' = state_ m /\
    emitted m' = emitted m /\
    logged m' = logged m /\
    utf8Decoder_ m' = fst (decodeAll decode (utf8Decoder_ m) s) /\
    currentChar_ m' = match s with [] => currentChar_ m | _ => 0 end.
Proof.
  intros Hall.
  assert (Hfeed : forall bs m0,
    Forall (fun r => r = utf8.Incomplete) (snd (decodeAll decode (utf8Decoder_ m0) bs)) ->
    feedAll decode table bs m0
    = Returns tt (set_utf8Decoder_ (fst (decodeAll decode (utf8Decoder_ m0) bs))
                    (set_currentChar_ (match bs with [] => currentChar_ m0 | _ => 0 end) m0))).
  { induction bs as [| b bs IH]; intros m0 H0.
    - simpl. destruct m0; reflexivity.
    - simpl in *. destruct (decode (utf8Decoder_ m0) b) as [d r] eqn:Hdec.
      destruct (decodeAll decode d bs) as [d2 rs] eqn:Hrs. simpl in H0.
      inversion H0 as [| ? ? Hr Hrest]; subst.
      unfold bind. rewrite (feed_Incomplete decode table b m0 d Hdec).
      rewrite IH; fields; rewrite Hrs; [| exact Hrest].
      simpl. destruct bs; reflexivity. }
  rewrite parseFragment_feedAll, (Hfeed s m Hall).
  eexists. split; [reflexivity |]. fields. now repeat split.
Qed.

End FragmentEffects.

(** ** One call of the switch dispatcher *)

Section SwitchEffects.

Context {DecoderState : Type}.
Implicit Types m : @Machine DecoderState.

Lemma switch_effect_intro m m' (new : list Emission) (news : list LogEvent) :
  utf8Decoder_ m' = utf8Decoder_ m ->
  currentChar_ m' = currentChar_ m ->
  actionHandler_ m' = actionHandler_ m ->
  logger_ m' = logger_ m ->
  traceLog_ m' = traceLog_ m ->
  span m' = span m ->
  (state_ m' = state_ m \/ (state_ m' <> State.Undefined /\ state_ m' <> State.CSI_Param)) ->
  emitted m' = emitted m ++ new ->
  (List.length new <= 2)%nat ->
  Forall (fun e => snd e = currentChar_ m /\ class_of e <> Leave /\
                   action_of e <> Action.Unhook /\ action_of e <> Action.OSC_End /\
                   action_of e <> Action.Undefined) new ->
  logged m' = logged m ++ news ->
  (List.length news <= 1)%nat ->
  (logger_ m = false -> news = []) ->
  switch_effect m m'.
Proof.
  intros. unfold switch_effect. repeat (split; [assumption |]).
  split; [exists new | exists news]; now repeat split.
Qed.

Ltac switch_side :=
  unfold span; fields;
  first [ reflexivity
        | now left
        | now rewrite app_nil_r
        | simpl; lia
        | intros ?; congruence
        | repeat constructor; cbn; congruence ].

Lemma switch_ok_intro m (o : @Outcome DecoderState unit) :
  (exists m', o = Returns tt m' /\ switch_effect m m') -> switch_ok m o.
Proof.
  intros (m1 & -> & E) m' H. injection H as <-. exact E.
Qed.

Lemma switch_ok_invokeAction a m :
  a <> Action.Unhook -> a <> Action.OSC_End -> a <> Action.Undefined ->
  switch_ok m (invokeAction Event a m).
Proof.
  intros H1 H2 H3. apply switch_ok_intro. unfold invokeAction.
  destruct (actionHandler_ m) eqn:Hh; eexists; (split; [reflexivity |]).
  - apply (switch_effect_intro _ _ [(Event, a, currentChar_ m)] []); switch_side.
  - apply (switch_effect_intro _ _ [] []); switch_side.
Qed.

Lemma switch_ok_transitionTo t a m :
  t <> State.Undefined -> t <> State.CSI_Param ->
  a <> Action.Unhook -> a <> Action.OSC_End -> a <> Action.Undefined ->
  switch_ok m (transitionTo t a m).
Proof.
  intros Ht1 Ht2 H1 H2 H3. apply switch_ok_intro.
  unfold transitionTo, bind, invokeAction, modify.
  destruct (actionHandler_ m) eqn:Hh.
  - destruct t; try contradiction; fields; rewrite ?Hh;
      eexists; (split; [reflexivity |]);
      first
        [ apply (switch_effect_intro _ _ [(Transition, a, currentChar_ m)] []);
          first [ switch_side | right; split; discriminate ]
        | eapply (switch_effect_intro _ _ [(Transition, a, currentChar_ m); _] []);
          first [ switch_side | right; split; discriminate
                | fields; rewrite <- app_assoc; reflexivity ] ].
  - destruct t; try contradiction; fields; rewrite ?Hh;
      eexists; (split; [reflexivity |]);
      apply (switch_effect_intro _ _ [] []);
      first [ switch_side | right; split; discriminate ].
Qed.

(** [logInvalidInput] returns only when [isprint] is called within its
    domain. *)
Lemma switch_ok_logInvalidInput m : switch_ok m (logInvalidInput m).
Proof.
  unfold logInvalidInput.
  destruct (isprint (to_int (currentChar m))) as [[] |]; [| | discriminate];
    apply switch_ok_intro; unfold log;
    destruct (logger_ m) eqn:Hl;
    eexists; (split; [reflexivity |]);
    first [ apply (switch_effect_intro _ _ [] []); switch_side
          | eapply (switch_effect_intro _ _ [] [_]); switch_side ].
Qed.

Lemma switch_ok_ret m : switch_ok m (ret tt m).
Proof.
  apply switch_ok_intro.
  exists m. split; [reflexivity |]. apply (switch_effect_intro _ _ [] []); switch_side.
Qed.

Ltac switch_leaf :=
  first [ apply switch_ok_ret
        | apply switch_ok_logInvalidInput
        | apply switch_ok_invokeAction; discriminate
        | apply switch_ok_transitionTo; discriminate
        | exfalso;
          match goal with
          | H : _ || true || _ || _ = false |- _ =>
              rewrite orb_true_r in H; discriminate H
          end ].

Ltac switch_cases :=
  lazymatch goal with
  | |- switch_ok _ ((if ?b then _ else _) _) =>
      let E := fresh "E" in destruct b eqn:E; switch_cases
  | |- _ => switch_leaf
  end.

(** The body of [handleViaSwitch], branch by branch. *)
Lemma handleViaSwitch_effect m :
  traceLog_ m = false -> switch_ok m (handleViaSwitch m).
Proof.
  intros Ht. unfold handleViaSwitch, bind. rewrite (logTrace_off _ m Ht).
  cbv zeta.
  destruct (state_ m) eqn:Hs; switch_cases.
Qed.

(** [<cctype>]'s [isprint] is defined for the code points of one byte. *)
Lemma isprint_defined (c : Z) : 0 <= c <= 0xFF -> isprint (to_int c) <> None.
Proof.
  intros H. unfold to_int. change (2 ^ 32) with 4294967296. change (2 ^ 31) with 2147483648.
  rewrite Z.mod_small by lia.
  replace (c <? 2147483648) with true by (symmetry; apply Z.ltb_lt; lia).
  unfold isprint.
  replace (c =? -1) with false by (symmetry; apply Z.eqb_neq; lia).
  replace ((0 <=? c) && (c <=? 255)) with true; [discriminate |].
  symmetry. apply andb_true_iff. rewrite !Z.leb_le. lia.
Qed.

Lemma invokeAction_returns k a m : exists m', invokeAction k a m = Returns tt m'.
Proof. unfold invokeAction. destruct (actionHandler_ m); eexists; reflexivity. Qed.

Lemma transitionTo_returns t a m : exists m', transitionTo t a m = Returns tt m'.
Proof.
  unfold transitionTo, bind, invokeAction, modify.
  destruct (actionHandler_ m) eqn:Hh; destruct t; fields; rewrite ?Hh;
    eexists; reflexivity.
Qed.

Lemma logInvalidInput_returns m :
  isprint (to_int (currentChar m)) <> None -> exists m', logInvalidInput m = Returns tt m'.
Proof.
  intros H. unfold logInvalidInput.
  destruct (isprint (to_int (currentChar m))) as [[] |]; [| | contradiction];
    unfold log; destruct (logger_ m); eexists; reflexivity.
Qed.

Ltac switch_returns :=
  lazymatch goal with
  | |- exists _, (if ?b then _ else _) _ = _ => destruct b; switch_returns
  | |- _ =>
      first [ apply invokeAction_returns
            | apply transitionTo_returns
            | now apply logInvalidInput_returns
            | eexists; reflexivity
            | cbv beta;
              match goal with
              | |- exists _, match invokeAction ?k ?a ?m with _ => _ end = _ =>
                  let E := fresh "E" in
                  destruct (invokeAction_returns k a m) as (? & E); rewrite E;
                  apply transitionTo_returns
              end ]
  end.

(** [handleViaSwitch] returns wherever [isprint] is defined for the current
    character: [logInvalidInput] is its one call that may not. *)
Lemma handleViaSwitch_returns m :
  traceLog_ m = false ->
  isprint (to_int (currentChar m)) <> None ->
  exists m', handleViaSwitch m = Returns tt m'.
Proof.
  intros Ht Hp. unfold handleViaSwitch, bind. rewrite (logTrace_off _ m Ht).
  cbv zeta.
  destruct (state_ m); switch_returns.
Qed.

End SwitchEffects.

Section SwitchRuns.

Context {DecoderState : Type}.
Implicit Types m : @Machine DecoderState.

(** The switch dispatcher handles to the end every sequence of code points
    of one byte. *)
Lemma dispatchAllViaSwitch_returns (cs : list Z) : forall m,
  traceLog_ m = false ->
  Forall (fun c => 0 <= c <= 0xFF) cs ->
  exists m', dispatchAllViaSwitch cs m = Returns tt m' /\ traceLog_ m' = false.
Proof.
  induction cs as [| c cs IH]; intros m Ht Hcs.
  - exists m. now split.
  - inversion Hcs as [| c0 cs0 Hc Hcs']; subst.
    destruct (handleViaSwitch_returns (set_currentChar_ c m) Ht (isprint_defined c Hc))
      as (m1 & H1).
    pose proof (handleViaSwitch_effect (set_currentChar_ c m) Ht m1 H1) as E1.
    destruct E1 as (_ & _ & _ & _ & Ht1 & _).
    revert Ht1. fields. intros Ht1.
    destruct (IH m1) as (m2 & H2 & Ht2); [congruence | exact Hcs' |].
    exists m2. split; [| exact Ht2].
    simpl. unfold bind at 1. unfold dispatchViaSwitch, bind, modify. now rewrite H1.
Qed.

Lemma dispatchViaSwitch_effect c m m' :
  traceLog_ m = false ->
  dispatchViaSwitch c m = Returns tt m' ->
  switch_effect (set_currentChar_ c m) m'.
Proof.
  intros Ht. unfold dispatchViaSwitch, bind, modify.
  apply (handleViaSwitch_effect (set_currentChar_ c m)). exact Ht.
Qed.

(** No branch of [handleViaSwitch] calls [transitionTo] with [CSI_Param] or
    [Undefined]. *)
Lemma dispatchAllViaSwitch_states (cs : list Z) : forall m m',
  traceLog_ m = false ->
  state_ m <> State.Undefined ->
  state_ m <> State.CSI_Param ->
  dispatchAllViaSwitch cs m = Returns tt m' ->
  state_ m' <> State.Undefined /\ state_ m' <> State.CSI_Param.
Proof.
  induction cs as [| c cs IH]; intros m m' Ht Hu Hp Hrun.
  - injection Hrun as <-. now split.
  - simpl in Hrun. apply bind_inv in Hrun as ([] & m1 & H1 & H2).
    pose proof (dispatchViaSwitch_effect c m m1 Ht H1) as E1.
    destruct E1 as (_ & _ & _ & _ & Ht1 & _ & Hs1 & _).
    revert Ht1 Hs1. fields. intros Ht1 Hs1.
    apply (IH m1 m'); try assumption.
    + congruence.
    + destruct Hs1 as [E | [E _]]; [now rewrite E | exact E].
    + destruct Hs1 as [E | [_ E]]; [now rewrite E | exact E].
Qed.

(** The calls that the switch dispatcher makes over a sequence of code
    points. *)
Lemma dispatchAllViaSwitch_emissions (cs : list Z) : forall m m',
  traceLog_ m = false ->
  dispatchAllViaSwitch cs m = Returns tt m' ->
  exists new,
    emitted m' = emitted m ++ new /\
    (List.length new <= 2 * List.length cs)%nat /\
    Forall (fun e => In (snd e) cs /\ class_of e <> Leave /\
                     action_of e <> Action.Unhook /\ action_of e <> Action.OSC_End) new.
Proof.
  induction cs as [| c cs IH]; intros m m' Ht Hrun.
  - injection Hrun as <-. exists []. rewrite app_nil_r.
    repeat split; [simpl; lia | constructor].
  - simpl in Hrun. apply bind_inv in Hrun as ([] & m1 & H1 & H2).
    pose proof (dispatchViaSwitch_effect c m m1 Ht H1) as E1.
    destruct E1 as (_ & _ & _ & _ & Ht1 & _ & _ & (new & He & Hn & Hf) & _).
    revert Ht1 He Hf. fields. intros Ht1 He Hf.
    destruct (IH m1 m') as (new' & He' & Hn' & Hf'); [congruence | exact H2 |].
    exists (new ++ new'). repeat split.
    + now rewrite He', He, app_assoc.
    + rewrite length_app. simpl List.length. lia.
    + apply Forall_app. split.
      * eapply Forall_impl; [| exact Hf]. intros e (E1 & E2 & E3 & E4 & _).
        repeat split; try assumption. left. now symmetry.
      * eapply Forall_impl; [| exact Hf']. intros e (E1 & E2).
        split; [now right | exact E2].
Qed.

(** X10.  The switch dispatcher never enters [CSI_Param] (nor [Undefined]):
    no branch of [handleViaSwitch] calls [transitionTo] with either, and its
    [CSI_Entry] case answers parameter characters without a transition.  So
    from a state other than these two, [Ground] for one, no sequence of code
    points that it handles to the end brings it into one of them.  It handles
    to the end every sequence of code points of one byte (0x00-0xFF); beyond
    them a call does not return when [logInvalidInput] hands [isprint] a
    value outside its domain. *)
Theorem handleViaSwitch_never_enters_CSI_Param (cs : list Z) : forall m,
  traceLog_ m = false ->
  state_ m <> State.Undefined ->
  state_ m <> State.CSI_Param ->
  (forall m', dispatchAllViaSwitch cs m = Returns tt m' ->
              state_ m' <> State.Undefined /\ state_ m' <> State.CSI_Param) /\
  (Forall (fun c => 0 <= c <= 0xFF) cs ->
   exists m', dispatchAllViaSwitch cs m = Returns tt m' /\
              state_ m' <> State.Undefined /\ state_ m' <> State.CSI_Param).
Proof.
  intros m Ht Hu Hp. split.
  - intros m'. now apply dispatchAllViaSwitch_states.
  - intros Hcs. destruct (dispatchAllViaSwitch_returns cs m Ht Hcs) as (m' & Hrun & _).
    exists m'. split; [exact Hrun |].
    exact (dispatchAllViaSwitch_states cs m m' Ht Hu Hp Hrun).
Qed.

(** X11.  The switch dispatcher fires no exit action: over any sequence of
    code points that it handles to the end it makes at most two calls to the
    handler for each code point, each with one of the code points of the
    sequence, and none of them has the class [Leave] or the action [Unhook]
    or [OSC_End]: the branches on 0x9C that name them are never taken.  It
    handles to the end every sequence of code points of one byte
    (0x00-0xFF), where [isprint] is defined. *)
Theorem handleViaSwitch_never_fires_exit_actions (cs : list Z) : forall m,
  traceLog_ m = false ->
  (forall m', dispatchAllViaSwitch cs m = Returns tt m' ->
     exists new,
       emitted m' = emitted m ++ new /\
       (List.length new <= 2 * List.length cs)%nat /\
       Forall (fun e => In (snd e) cs /\ class_of e <> Leave /\
                        action_of e <> Action.Unhook /\ action_of e <> Action.OSC_End) new) /\
  (Forall (fun c => 0 <= c <= 0xFF) cs ->
   exists m' new,
     dispatchAllViaSwitch cs m = Returns tt m' /\
     emitted m' = emitted m ++ new /\
     (List.length new <= 2 * List.length cs)%nat /\
     Forall (fun e => In (snd e) cs /\ class_of e <> Leave /\
                      action_of e <> Action.Unhook /\ action_of e <> Action.OSC_End) new).
Proof.
  intros m Ht. split.
  - intros m'. now apply dispatchAllViaSwitch_emissions.
  - intros Hcs. destruct (dispatchAllViaSwitch_returns cs m Ht Hcs) as (m' & Hrun & _).
    destruct (dispatchAllViaSwitch_emissions cs m m' Ht Hrun) as (new & H).
    exists m', new. split; [exact Hrun | exact H].
Qed.

(** X12.  In the switch dispatcher a C0 control of [isExecuteChar] never
    changes the state: in every state but [Undefined] it is answered by one
    [Event] call and nothing else, with [Put] in [DCS_PassThrough], [Ignore]
    in [DCS_Ignore], [OSC_String] and [SOS_PM_APC_String], and [Execute] in
    the ten other states. *)
Theorem handleViaSwitch_execute_keeps_state (c : Z) m :
  traceLog_ m = false ->
  state_ m <> State.Undefined ->
  isExecuteChar c = true ->
  dispatchViaSwitch c m
  = Returns tt
      (if actionHandler_ m
       then set_emitted (emitted m ++ [(Event, execute_action (state_ m), c)])
              (set_currentChar_ c m)
       else set_currentChar_ c m).
Proof.
  intros Ht Hs Hx.
  unfold dispatchViaSwitch, handleViaSwitch, bind, modify.
  rewrite logTrace_off by exact Ht.
  cbv zeta. unfold currentChar. fields.
  assert (Hsmall : 0 <= c <= 0x1F).
  { revert Hx. unfold isExecuteChar, includes. cbn [first last].
    destruct (code_point_intervals c)
      as [H | [H | [H | [H | [H | [H | [H | [H | [H | H]]]]]]]]];
      settle_comparisons; cbn; intros Hx; try discriminate Hx; lia. }
  rewrite (to_wchar_t_small c) by lia.
  assert (Hany : (c =? 0x18) || (c =? 0x1A) || (c =? 0x9C) || includes (mkRange 0x80 0x8F) c
                 || includes (mkRange 0x91 0x97) c = false
                 /\ (c =? 0x1B) = false /\ (c =? 0x90) = false
                 /\ (c =? 0x98) || (c =? 0x9E) || (c =? 0x9F) = false).
  { revert Hx. unfold isExecuteChar, includes. cbn [first last].
    destruct (code_point_intervals c)
      as [H | [H | [H | [H | [H | [H | [H | [H | [H | H]]]]]]]]];
      try (exfalso; lia);
      settle_comparisons; cbn; intros Hx; try discriminate Hx; now repeat split. }
  destruct Hany as (-> & -> & -> & ->).
  destruct (state_ m) eqn:Hst; try contradiction; rewrite ?Hx; cbn [orb];
    unfold invokeAction; fields; destruct (actionHandler_ m); reflexivity.
Qed.

End SwitchRuns.

(** ** Text in Ground *)

Section GroundText.

Context {DecoderState : Type}.
Variable decode : DecoderState -> byte -> DecoderState * utf8.Result.
Variable table : ParserTable.
Implicit Types m : @Machine DecoderState.

(** X13.  Text goes straight through: in [Ground], with a handler, a fragment
    whose decoded code points are all printable, as [isPrintChar] sees them
    after the conversion to [wchar_t], is parsed to its end without any table
    lookup, whatever the table holds, also for code points beyond the table;
    the parser stays in [Ground] and makes exactly one [Event/Print] call for
    each delivered code point, in order. *)
Theorem parseFragment_Ground_text s : forall m,
  state_ m = State.Ground ->
  actionHandler_ m = true ->
  Forall (fun c => isPrintChar (to_wchar_t c) = true)
         (codepoints (snd (decodeAll decode (utf8Decoder_ m) s))) ->
  exists m',
    parseFragment decode table s m = Returns tt m' /\
    state_ m' = State.Ground /\
    emitted m'
    = emitted m ++ map (fun c => (Event, Action.Print, c))
                       (codepoints (snd (decodeAll decode (utf8Decoder_ m) s))).
Proof.
  assert (Hfeed : forall bs m0,
    state_ m0 = State.Ground -> actionHandler_ m0 = true ->
    Forall (fun c => isPrintChar (to_wchar_t c) = true)
           (codepoints (snd (decodeAll decode (utf8Decoder_ m0) bs))) ->
    exists m1,
      feedAll decode table bs m0 = Returns tt m1 /\
      state_ m1 = State.Ground /\
      emitted m1
      = emitted m0 ++ map (fun c => (Event, Action.Print, c))
                          (codepoints (snd (decodeAll decode (utf8Decoder_ m0) bs)))).
  { induction bs as [| b bs IH]; intros m0 Hs Hh Hall.
    - exists m0. simpl. rewrite app_nil_r. now repeat split.
    - simpl in *. destruct (decode (utf8Decoder_ m0) b) as [d r] eqn:Hdec.
      destruct (decodeAll decode d bs) as [d2 rs] eqn:Hrs. simpl in Hall. simpl.
      destruct (delivered r) as [c |] eqn:Hdel.
      + inversion Hall as [| ? ? Hc Hrest]; subst.
        destruct (feed_Ground_print decode table b m0 d r c Hdec Hdel Hc Hs Hh)
          as (m1 & R1 & S1 & D1 & A1 & E1 & _).
        destruct (IH m1 S1 A1) as (m2 & R2 & S2 & E2).
        { rewrite D1, Hrs. exact Hrest. }
        exists m2. unfold bind. rewrite R1. split; [exact R2 |]. split; [exact S2 |].
        rewrite E2, E1, D1, Hrs, <- app_assoc. reflexivity.
      + destruct r; try discriminate.
        unfold bind. rewrite (feed_Incomplete decode table b m0 d Hdec).
        destruct (IH (set_utf8Decoder_ d (set_currentChar_ 0 m0)) Hs Hh) as (m2 & R2 & S2 & E2).
        { fields. rewrite Hrs. exact Hall. }
        exists m2. split; [exact R2 |]. split; [exact S2 |].
        revert E2. fields. rewrite Hrs. tauto. }
  intros m Hs Hh Hall.
  destruct (Hfeed s m Hs Hh Hall) as (m1 & R1 & S1 & E1).
  rewrite parseFragment_feedAll, R1. eexists. split; [reflexivity |]. fields. now split.
Qed.

End GroundText.

(** ** The properties above at concrete inputs *)

Lemma parseFragment_state_defined_witness :
  state_ (machine_after
            (parseFragment scripted ParserTable_get [x1b; x5b; x41]
               (construct true false (map utf8.Success [0x1B; 0x5B; 0x41])))
            (construct true false (map utf8.Success [0x1B; 0x5B; 0x41])))
  <> State.Undefined.
Proof.
  apply (parseFragment_state_defined scripted ParserTable_get [x1b; x5b; x41]
           (construct true false (map utf8.Success [0x1B; 0x5B; 0x41])));
    [discriminate | vm_compute; reflexivity].
Defined.

Lemma parseFragment_decodes_every_byte_witness :
  utf8Decoder_ (machine_after
                  (parseFragment scripted ParserTable_get [x41; xc3]
                     (construct true false [utf8.Success 0x41; utf8.Incomplete; utf8.Success 0xE9]))
                  (construct true false [utf8.Success 0x41; utf8.Incomplete; utf8.Success 0xE9]))
  = fst (decodeAll scripted [utf8.Success 0x41; utf8.Incomplete; utf8.Success 0xE9] [x41; xc3]).
Proof.
  apply (parseFragment_decodes_every_byte scripted ParserTable_get [x41; xc3]
           (construct true false [utf8.Success 0x41; utf8.Incomplete; utf8.Success 0xE9])).
  vm_compute; reflexivity.
Defined.

Lemma parseFragment_emissions_bounded_witness :
  exists new,
    emitted (machine_after
               (parseFragment scripted ParserTable_get [x1b; x5b; x41]
                  (construct true false (map utf8.Success [0x1B; 0x5B; 0x41])))
               (construct true false (map utf8.Success [0x1B; 0x5B; 0x41])))
    = [] ++ new /\
    (List.length new
     <= 3 * List.length (codepoints (snd (decodeAll scripted
                                          (map utf8.Success [0x1B; 0x5B; 0x41]%Z)
                                          [x1b; x5b; x41]))))%nat /\
    (List.length new <= 3 * 3)%nat /\
    Forall (fun e => In (snd e)
                       (codepoints (snd (decodeAll scripted
                                           (map utf8.Success [0x1B; 0x5B; 0x41])
                                           [x1b; x5b; x41])))) new.
Proof.
  apply (parseFragment_emissions_bounded scripted ParserTable_get [x1b; x5b; x41]
           (construct true false (map utf8.Success [0x1B; 0x5B; 0x41]))).
  vm_compute; reflexivity.
Defined.

Lemma parseFragment_diagnostics_witness :
  exists news,
    logged (machine_after
              (parseFragment scripted ParserTable_get [x41; xc3; x28; x42]
                 (construct true true
                    [utf8.Success 0x41; utf8.Incomplete; utf8.Invalid 0xFFFD; utf8.Success 0x42]))
              (construct true true
                 [utf8.Success 0x41; utf8.Incomplete; utf8.Invalid 0xFFFD; utf8.Success 0x42]))
    = [] ++ news /\
    count_occ LogEvent_eq_dec news InvalidUTF8 = 1%nat /\
    (true = false -> news = []).
Proof.
  apply (parseFragment_diagnostics scripted ParserTable_get [x41; xc3; x28; x42]
           (construct true true
              [utf8.Success 0x41; utf8.Incomplete; utf8.Invalid 0xFFFD; utf8.Success 0x42])).
  vm_compute; reflexivity.
Defined.

Lemma parseFragment_Incomplete_silent_witness :
  exists m',
    parseFragment scripted ParserTable_get [xe2; x82]
      (set_state_ State.OSC_String
         (construct true true [utf8.Incomplete; utf8.Incomplete; utf8.Success 0x20AC]))
    = Returns tt m' /\
    state_ m' = State.OSC_String /\
    emitted m' = [] /\
    logged m' = [] /\
    utf8Decoder_ m' = [utf8.Success 0x20AC] /\
    currentChar_ m' = 0.
Proof.
  apply (parseFragment_Incomplete_silent scripted ParserTable_get [xe2; x82]
           (set_state_ State.OSC_String
              (construct true true [utf8.Incomplete; utf8.Incomplete; utf8.Success 0x20AC]))).
  repeat constructor.
Defined.

Lemma handleViaSwitch_never_enters_CSI_Param_witness :
  (forall m' : @Machine unit,
     dispatchAllViaSwitch [0x1B; 0x5B; 0x31; 0x3B; 0x33; 0x31; 0x6D] (construct true false tt)
     = Returns tt m' ->
     state_ m' <> State.Undefined /\ state_ m' <> State.CSI_Param) /\
  (exists m' : @Machine unit,
     dispatchAllViaSwitch [0x1B; 0x5B; 0x31; 0x3B; 0x33; 0x31; 0x6D] (construct true false tt)
     = Returns tt m' /\
     state_ m' <> State.Undefined /\ state_ m' <> State.CSI_Param).
Proof.
  destruct (handleViaSwitch_never_enters_CSI_Param
              [0x1B; 0x5B; 0x31; 0x3B; 0x33; 0x31; 0x6D] (construct true false tt))
    as [Hsafe Hruns]; [reflexivity | discriminate | discriminate |].
  split; [exact Hsafe | apply Hruns; repeat constructor; lia].
Defined.

Lemma handleViaSwitch_never_fires_exit_actions_witness :
  (forall m' : @Machine unit,
     dispatchAllViaSwitch [0x1B; 0x5D; 0x58; 0x9C] (construct true false tt) = Returns tt m' ->
     exists new,
       emitted m' = [] ++ new /\
       (List.length new <= 2 * 4)%nat /\
       Forall (fun e => In (snd e) [0x1B; 0x5D; 0x58; 0x9C] /\ class_of e <> Leave /\
                        action_of e <> Action.Unhook /\ action_of e <> Action.OSC_End) new) /\
  (exists (m' : @Machine unit) new,
     dispatchAllViaSwitch [0x1B; 0x5D; 0x58; 0x9C] (construct true false tt) = Returns tt m' /\
     emitted m' = [] ++ new /\
     (List.length new <= 2 * 4)%nat /\
     Forall (fun e => In (snd e) [0x1B; 0x5D; 0x58; 0x9C] /\ class_of e <> Leave /\
                      action_of e <> Action.Unhook /\ action_of e <> Action.OSC_End) new).
Proof.
  destruct (handleViaSwitch_never_fires_exit_actions
              [0x1B; 0x5D; 0x58; 0x9C] (construct true false tt))
    as [Hsafe Hruns]; [reflexivity |].
  split; [exact Hsafe | apply Hruns; repeat constructor; lia].
Defined.

Lemma handleViaSwitch_execute_keeps_state_witness :
  dispatchViaSwitch 0x0A (set_state_ State.CSI_Entry (construct true false tt))
  = Returns tt
      (set_emitted [(Event, Action.Execute, 0x0A)]
         (set_currentChar_ 0x0A (set_state_ State.CSI_Entry (construct true false tt)))).
Proof.
  apply (handleViaSwitch_execute_keeps_state 0x0A
           (set_state_ State.CSI_Entry (construct true false tt)));
    [reflexivity | discriminate | reflexivity].
Defined.

Lemma parseFragment_Ground_text_witness :
  exists m',
    parseFragment scripted ParserTable_get [x48; xe2; x82; xac]
      (construct true false
         [utf8.Success 0x48; utf8.Incomplete; utf8.Incomplete; utf8.Success 0x20AC])
    = Returns tt m' /\
    state_ m' = State.Ground /\
    emitted m' = [(Event, Action.Print, 0x48); (Event, Action.Print, 0x20AC)].
Proof.
  apply (parseFragment_Ground_text scripted ParserTable_get [x48; xe2; x82; xac]
           (construct true false
              [utf8.Success 0x48; utf8.Incomplete; utf8.Incomplete; utf8.Success 0x20AC]));
    [reflexivity | reflexivity | repeat constructor].
Defined.

(** ** Sequences through the switch dispatcher *)

Section SwitchSequences.

Context {DecoderState : Type}.
Implicit Types m : @Machine DecoderState.

Ltac switch_step Ht :=
  unfold dispatchViaSwitch, handleViaSwitch, bind, modify;
  rewrite logTrace_off by exact Ht;
  cbv zeta; unfold currentChar; fields;
  rewrite ?to_wchar_t_small by lia;
  unfold isExecuteChar, isParamChar, includes; cbn [first last];
  settle_comparisons; cbn [orb andb].

Lemma includes_spec lo hi c : includes (mkRange lo hi) c = true <-> lo <= c <= hi.
Proof.
  unfold includes. cbn [first last]. rewrite andb_true_iff, !Z.leb_le. tauto.
Qed.

Lemma isParamChar_spec c : isParamChar c = true <-> 0x30 <= c <= 0x39 \/ c = 0x3B.
Proof.
  unfold isParamChar. rewrite orb_true_iff, includes_spec, Z.eqb_eq. tauto.
Qed.

(** ESC from any state. *)
Lemma switch_ESC m :
  traceLog_ m = false -> actionHandler_ m = true ->
  exists m', dispatchViaSwitch 0x1B m = Returns tt m' /\
             state_ m' = State.Escape /\ traceLog_ m' = false /\
             actionHandler_ m' = true /\
             emitted m' = emitted m ++ [(Transition, Action.Ignore, 0x1B);
                                        (Enter, Action.Clear, 0x1B)].
Proof.
  intros Ht Hh. switch_step Ht.
  unfold transitionTo, bind, invokeAction, modify. fields. rewrite Hh. fields. rewrite Hh.
  eexists. split; [reflexivity |]. fields. rewrite <- app_assoc. now repeat split.
Qed.

(** An introducer after ESC: 0x5B for CSI, 0x5D for OSC. *)
Lemma switch_introducer c t a m :
  (c = 0x5B /\ t = State.CSI_Entry /\ a = Action.Clear) \/
  (c = 0x5D /\ t = State.OSC_String /\ a = Action.OSC_Start) ->
  traceLog_ m = false -> actionHandler_ m = true -> state_ m = State.Escape ->
  exists m', dispatchViaSwitch c m = Returns tt m' /\
             state_ m' = t /\ traceLog_ m' = false /\ actionHandler_ m' = true /\
             emitted m' = emitted m ++ [(Transition, Action.Ignore, c); (Enter, a, c)].
Proof.
  intros [(-> & -> & ->) | (-> & -> & ->)] Ht Hh Hs; switch_step Ht; rewrite Hs;
    unfold transitionTo, bind, invokeAction, modify; fields; rewrite Hh; fields; rewrite Hh;
    (eexists; split; [reflexivity |]); fields; rewrite <- app_assoc; now repeat split.
Qed.

Lemma switch_params ps : forall m,
  traceLog_ m = false -> actionHandler_ m = true -> state_ m = State.CSI_Entry ->
  Forall (fun c => isParamChar c = true) ps ->
  exists m', dispatchAllViaSwitch ps m = Returns tt m' /\
             state_ m' = State.CSI_Entry /\ traceLog_ m' = false /\
             actionHandler_ m' = true /\
             emitted m' = emitted m ++ map (fun c => (Event, Action.Param, c)) ps.
Proof.
  induction ps as [| c ps IH]; intros m Ht Hh Hs Hall.
  - exists m. simpl. rewrite app_nil_r. now repeat split.
  - inversion Hall as [| ? ? Hc Hrest]; subst.
    apply isParamChar_spec in Hc.
    assert (H1 : dispatchViaSwitch c m
                 = Returns tt (set_emitted (emitted m ++ [(Event, Action.Param, c)])
                                 (set_currentChar_ c m))).
    { switch_step Ht. rewrite Hs.
      destruct Hc as [Hc | ->]; settle_comparisons; cbn [orb andb];
        unfold invokeAction; fields; rewrite Hh; reflexivity. }
    destruct (IH (set_emitted (emitted m ++ [(Event, Action.Param, c)])
                    (set_currentChar_ c m)) Ht Hh Hs Hrest) as (m' & R & S & T & A & E).
    exists m'. simpl. unfold bind. rewrite H1. split; [exact R |].
    repeat split; try assumption.
    rewrite E. fields. now rewrite <- app_assoc.
Qed.

Lemma switch_OSC_payload ps : forall m,
  traceLog_ m = false -> actionHandler_ m = true -> state_ m = State.OSC_String ->
  Forall (fun c => includes (mkRange 0x20 0x7F) c = true) ps ->
  exists m', dispatchAllViaSwitch ps m = Returns tt m' /\
             state_ m' = State.OSC_String /\ traceLog_ m' = false /\
             actionHandler_ m' = true /\
             emitted m' = emitted m ++ map (fun c => (Event, Action.OSC_Put, c)) ps.
Proof.
  induction ps as [| c ps IH]; intros m Ht Hh Hs Hall.
  - exists m. simpl. rewrite app_nil_r. now repeat split.
  - inversion Hall as [| ? ? Hc Hrest]; subst.
    apply includes_spec in Hc.
    assert (H1 : dispatchViaSwitch c m
                 = Returns tt (set_emitted (emitted m ++ [(Event, Action.OSC_Put, c)])
                                 (set_currentChar_ c m))).
    { switch_step Ht. rewrite Hs.
      unfold invokeAction; fields; rewrite Hh; reflexivity. }
    destruct (IH (set_emitted (emitted m ++ [(Event, Action.OSC_Put, c)])
                    (set_currentChar_ c m)) Ht Hh Hs Hrest) as (m' & R & S & T & A & E).
    exists m'. simpl. unfold bind. rewrite H1. split; [exact R |].
    repeat split; try assumption.
    rewrite E. fields. now rewrite <- app_assoc.
Qed.

Lemma dispatchAllViaSwitch_app cs1 cs2 m :
  @dispatchAllViaSwitch DecoderState (cs1 ++ cs2) m
  = (dispatchAllViaSwitch cs1 ;; dispatchAllViaSwitch cs2) m.
Proof.
  revert m. induction cs1 as [| c cs1 IH]; intros m; simpl.
  - reflexivity.
  - rewrite bind_assoc. apply bind_ext. intros _ m'. apply IH.
Qed.

(** X14.  A control sequence through the switch dispatcher: from any state,
    ESC, "[", any number of parameter characters and a final character in
    0x40-0x7E end in [Ground]; the handler receives [Clear] on entering
    [Escape] and [CSI_Entry], one [Event/Param] for each parameter character
    and one [Transition/CSI_Dispatch] with the final character. *)
Theorem handleViaSwitch_CSI_sequence (ps : list Z) (final : Z) m :
  traceLog_ m = false ->
  actionHandler_ m = true ->
  Forall (fun c => isParamChar c = true) ps ->
  includes (mkRange 0x40 0x7E) final = true ->
  exists m',
    dispatchAllViaSwitch ([0x1B; 0x5B] ++ ps ++ [final]) m = Returns tt m' /\
    state_ m' = State.Ground /\
    emitted m'
    = emitted m
      ++ [(Transition, Action.Ignore, 0x1B); (Enter, Action.Clear, 0x1B);
          (Transition, Action.Ignore, 0x5B); (Enter, Action.Clear, 0x5B)]
      ++ map (fun c => (Event, Action.Param, c)) ps
      ++ [(Transition, Action.CSI_Dispatch, final)].
Proof.
  intros Ht Hh Hps Hfinal.
  destruct (switch_ESC m Ht Hh) as (m1 & R1 & S1 & T1 & A1 & E1).
  destruct (switch_introducer 0x5B State.CSI_Entry Action.Clear m1) as (m2 & R2 & S2 & T2 & A2 & E2);
    [left; now repeat split | assumption ..|].
  destruct (switch_params ps m2 T2 A2 S2 Hps) as (m3 & R3 & S3 & T3 & A3 & E3).
  apply includes_spec in Hfinal.
  assert (R4 : dispatchViaSwitch final m3
               = Returns tt (set_state_ State.Ground
                               (set_emitted (emitted m3 ++ [(Transition, Action.CSI_Dispatch, final)])
                                  (set_currentChar_ final m3)))).
  { switch_step T3. rewrite S3. settle_comparisons. cbn [orb andb].
    unfold transitionTo, bind, invokeAction, modify. fields. rewrite A3. reflexivity. }
  eexists. split.
  - change ([0x1B; 0x5B] ++ ps ++ [final]) with (0x1B :: 0x5B :: (ps ++ [final])).
    cbn [dispatchAllViaSwitch]. unfold bind at 1. rewrite R1.
    unfold bind at 1. rewrite R2.
    rewrite dispatchAllViaSwitch_app. unfold bind at 1. rewrite R3.
    cbn [dispatchAllViaSwitch]. unfold bind, ret. rewrite R4. reflexivity.
  - fields. split; [reflexivity |].
    rewrite E3, E2, E1, <- !app_assoc. reflexivity.
Qed.

(** X15.  An operating system command through the switch dispatcher: from
    any state, ESC, "]" and any number of characters in 0x20-0x7F leave the
    parser in [OSC_String]; the handler receives [Enter/OSC_Start] once and
    one [Event/OSC_Put] for each character of the string. *)
Theorem handleViaSwitch_OSC_string (ps : list Z) m :
  traceLog_ m = false ->
  actionHandler_ m = true ->
  Forall (fun c => includes (mkRange 0x20 0x7F) c = true) ps ->
  exists m',
    dispatchAllViaSwitch ([0x1B; 0x5D] ++ ps) m = Returns tt m' /\
    state_ m' = State.OSC_String /\
    emitted m'
    = emitted m
      ++ [(Transition, Action.Ignore, 0x1B); (Enter, Action.Clear, 0x1B);
          (Transition, Action.Ignore, 0x5D); (Enter, Action.OSC_Start, 0x5D)]
      ++ map (fun c => (Event, Action.OSC_Put, c)) ps.
Proof.
  intros Ht Hh Hps.
  destruct (switch_ESC m Ht Hh) as (m1 & R1 & S1 & T1 & A1 & E1).
  destruct (switch_introducer 0x5D State.OSC_String Action.OSC_Start m1)
    as (m2 & R2 & S2 & T2 & A2 & E2);
    [right; now repeat split | assumption ..|].
  destruct (switch_OSC_payload ps m2 T2 A2 S2 Hps) as (m3 & R3 & S3 & T3 & A3 & E3).
  exists m3. split.
  - change ([0x1B; 0x5D] ++ ps) with (0x1B :: 0x5D :: ps).
    cbn [dispatchAllViaSwitch]. unfold bind at 1. rewrite R1.
    unfold bind at 1. rewrite R2. exact R3.
  - split; [exact S3 |].
    rewrite E3, E2, E1, <- !app_assoc. reflexivity.
Qed.

End SwitchSequences.

Lemma handleViaSwitch_CSI_sequence_witness :
  exists m' : @Machine unit,
    dispatchAllViaSwitch ([0x1B; 0x5B] ++ [0x31; 0x3B; 0x33; 0x31] ++ [0x6D])
      (set_state_ State.OSC_String (construct true false tt))
    = Returns tt m' /\
    state_ m' = State.Ground /\
    emitted m'
    = [] ++ [(Transition, Action.Ignore, 0x1B); (Enter, Action.Clear, 0x1B);
             (Transition, Action.Ignore, 0x5B); (Enter, Action.Clear, 0x5B)]
      ++ map (fun c => (Event, Action.Param, c)) [0x31; 0x3B; 0x33; 0x31]
      ++ [(Transition, Action.CSI_Dispatch, 0x6D)].
Proof.
  apply (handleViaSwitch_CSI_sequence [0x31; 0x3B; 0x33; 0x31] 0x6D
           (set_state_ State.OSC_String (construct true false tt)));
    [reflexivity | reflexivity | repeat constructor | reflexivity].
Defined.

Lemma handleViaSwitch_OSC_string_witness :
  exists m' : @Machine unit,
    dispatchAllViaSwitch ([0x1B; 0x5D] ++ [0x30; 0x3B; 0x58]) (construct true false tt)
    = Returns tt m' /\
    state_ m' = State.OSC_String /\
    emitted m'
    = [] ++ [(Transition, Action.Ignore, 0x1B); (Enter, Action.Clear, 0x1B);
             (Transition, Action.Ignore, 0x5D); (Enter, Action.OSC_Start, 0x5D)]
      ++ map (fun c => (Event, Action.OSC_Put, c)) [0x30; 0x3B; 0x58].
Proof.
  apply (handleViaSwitch_OSC_string [0x30; 0x3B; 0x58] (construct true false tt));
    [reflexivity | reflexivity | repeat constructor].
Defined.

(** * The parser on the outcomes of the decoder *)

Section Outcomes.

Context {DecoderState : Type}.
Variable decode : DecoderState -> byte -> DecoderState * utf8.Result.
Variable table : ParserTable.
Implicit Types m : @Machine DecoderState.

Lemma handleViaTables_set_utf8Decoder_ d m :
  handleViaTables table (set_utf8Decoder_ d m)
  = outcome_map (set_utf8Decoder_ d) (handleViaTables table m).
Proof.
  unfold handleViaTables, bind, invokeAction, log, modify, currentChar. fields.
  repeat match goal with
         | |- context [if ?b then _ else _] => destruct b; fields
         | |- context [match ?o with Some _ => _ | None => _ end] => destruct o; fields
         end; reflexivity.
Qed.

Lemma visit_set_utf8Decoder_ r d m :
  visit table r (set_utf8Decoder_ d m) = outcome_map (set_utf8Decoder_ d) (visit table r m).
Proof.
  destruct r as [| c | c]; cbn [visit]; unfold bind, log, modify; fields.
  - reflexivity.
  - destruct (logger_ m);
      [apply (handleViaTables_set_utf8Decoder_ d
                (set_currentChar_ c (set_logged (logged m ++ [InvalidUTF8]) m)))
      | apply (handleViaTables_set_utf8Decoder_ d (set_currentChar_ c m))].
  - apply (handleViaTables_set_utf8Decoder_ d (set_currentChar_ c m)).
Qed.

Lemma dispatchAll_set_utf8Decoder_ rs : forall d m,
  dispatchAll table rs (set_utf8Decoder_ d m)
  = outcome_map (set_utf8Decoder_ d) (dispatchAll table rs m).
Proof.
  induction rs as [| r rs IH]; intros d m; cbn [dispatchAll].
  - reflexivity.
  - unfold bind, modify.
    change (set_currentChar_ 0 (set_utf8Decoder_ d m))
      with (set_utf8Decoder_ d (set_currentChar_ 0 m)).
    rewrite visit_set_utf8Decoder_.
    destruct (visit table r (set_currentChar_ 0 m)) as [[] m1| |]; cbn [outcome_map];
      [apply IH | reflexivity | reflexivity].
Qed.

(** The loop is the state machine run on what the decoder reports: the
    decoder meets the rest of the parser in its outcomes only. *)
Lemma feedAll_dispatchAll bs : forall m,
  feedAll decode table bs m
  = outcome_map (set_utf8Decoder_ (fst (decodeAll decode (utf8Decoder_ m) bs)))
      (dispatchAll table (snd (decodeAll decode (utf8Decoder_ m) bs)) m).
Proof.
  induction bs as [| b bs IH]; intros m.
  - simpl. destruct m; reflexivity.
  - cbn [feedAll decodeAll]. unfold feed, bind, modify, decodeByte. fields.
    destruct (decode (utf8Decoder_ m) b) as [d r] eqn:Hdec.
    destruct (decodeAll decode d bs) as [d2 rs] eqn:Hrs.
    cbn [fst snd dispatchAll]. unfold bind, modify.
    rewrite visit_set_utf8Decoder_.
    destruct (visit table r (set_currentChar_ 0 m)) as [[] m1| |]; cbn [outcome_map];
      try reflexivity.
    rewrite IH. fields. rewrite Hrs. cbn [fst snd].
    rewrite dispatchAll_set_utf8Decoder_.
    destruct (dispatchAll table rs m1) as [[] m2| |]; reflexivity.
Qed.

Lemma parseFragment_dispatchAll s m :
  parseFragment decode table s m
  = outcome_map
      (fun m' => set_span s (List.length s) (List.length s)
                   (set_utf8Decoder_ (fst (decodeAll decode (utf8Decoder_ m) s)) m'))
      (dispatchAll table (snd (decodeAll decode (utf8Decoder_ m) s)) m).
Proof.
  rewrite parseFragment_feedAll, feedAll_dispatchAll.
  destruct (dispatchAll table _ m); reflexivity.
Qed.

End Outcomes.

(** * The parser on the table path *)

(** Runs the state machine on a list of outcomes in a machine whose state and
    handler are known. *)
Ltac run_outcomes :=
  match goal with
  | |- context [set_utf8Decoder_ ?d] => generalize d; intros ?
  end;
  cbv -[app]; rewrite <- ?app_assoc; cbn [app].

Lemma anywhere_intervals (c : Z) :
  c < 0x18 \/ c = 0x18 \/ c = 0x19 \/ c = 0x1A \/ c = 0x1B \/ 0x1C <= c <= 0x7F \/
  0x80 <= c <= 0x8F \/ c = 0x90 \/ 0x91 <= c <= 0x97 \/ c = 0x98 \/
  0x99 <= c <= 0x9B \/ c = 0x9C \/ c = 0x9D \/ c = 0x9E \/ c = 0x9F \/ 0xA0 <= c.
Proof. lia. Qed.

(** The code points of the "anywhere" rules, target by target. *)
Lemma anywhere_spec (c : Z) :
  (anywhere c = Some State.Ground <->
   c = 0x18 \/ c = 0x1A \/ c = 0x9C \/ 0x80 <= c <= 0x8F \/ 0x91 <= c <= 0x97) /\
  (anywhere c = Some State.Escape <-> c = 0x1B) /\
  (anywhere c = Some State.DCS_Entry <-> c = 0x90) /\
  (anywhere c = Some State.SOS_PM_APC_String <-> c = 0x98 \/ c = 0x9E \/ c = 0x9F).
Proof.
  unfold anywhere, includes. cbn [first last].
  destruct (anywhere_intervals c)
    as [H | [H | [H | [H | [H | [H | [H | [H | [H | [H | [H | [H | [H | [H | [H | H]]]]]]]]]]]]]]];
    settle_comparisons; cbn;
    repeat split; intros E; try discriminate E; try reflexivity; try lia.
Qed.

Section TablePath.

Context {DecoderState : Type}.
Variable decode : DecoderState -> byte -> DecoderState * utf8.Result.
Implicit Types m : @Machine DecoderState.

(** A transition of [handleViaTables] is the four statements of lines
    113-116, in that order. *)
Lemma handleViaTables_transition_chain (table : ParserTable) m t :
  State.eqb (state_ m) State.Ground && isPrintChar (to_wchar_t (currentChar m)) = false ->
  subscript table (transitions table (state_ m)) (currentChar m) = Some t ->
  t <> State.Undefined ->
  handleViaTables table m
  = (invokeAction Leave (exitEvents table (state_ m)) ;;
     invokeAction Transition (events table (state_ m) (currentChar m)) ;;
     modify (set_state_ t) ;;
     invokeAction Enter (entryEvents table t)) m.
Proof.
  intros Hfast Ht Hdef.
  rewrite (handleViaTables_transition table m t Hfast Ht Hdef).
  unfold bind, invokeAction, modify. fields.
  destruct (actionHandler_ m) eqn:Hh; fields; rewrite ?Hh; fields; rewrite ?Hh;
    [| reflexivity].
  f_equal. destruct m; cbn. now rewrite <- !app_assoc.
Qed.

(** An event of [handleViaTables] (lines 118-119). *)
Lemma handleViaTables_event (table : ParserTable) m a :
  State.eqb (state_ m) State.Ground && isPrintChar (to_wchar_t (currentChar m)) = false ->
  subscript table (transitions table (state_ m)) (currentChar m) = Some State.Undefined ->
  events table (state_ m) (currentChar m) = a ->
  a <> Action.Undefined ->
  handleViaTables table m = invokeAction Event a m.
Proof.
  intros Hfast Ht Ha Hdef. unfold handleViaTables. rewrite Hfast, Ht.
  rewrite (subscript_Some table _ (events table (state_ m)) _ _ Ht), Ha. cbn.
  unfold Action.eqb. destruct (Action.eq_dec a Action.Undefined); [contradiction | reflexivity].
Qed.

Lemma subscript_get {A : Type} (row : Z -> A) c :
  0 <= c < 0xA0 -> subscript ParserTable_get row c = Some (row c).
Proof.
  intros H. unfold subscript. cbn [width ParserTable_get].
  replace ((0 <=? c) && (c <? 160)) with true; [reflexivity |].
  symmetry. apply andb_true_iff. rewrite Z.leb_le, Z.ltb_lt. lia.
Qed.

(** The rows of [CSI_Param] in the table of the spec. *)
Lemma CSI_Param_row (c : Z) :
  (isParamChar c = true ->
   transitions ParserTable_get State.CSI_Param c = State.Undefined /\
   events ParserTable_get State.CSI_Param c = Action.Param) /\
  (c = 0x3A \/ 0x3C <= c <= 0x3F ->
   transitions ParserTable_get State.CSI_Param c = State.CSI_Ignore /\
   events ParserTable_get State.CSI_Param c = Action.Ignore) /\
  (0x20 <= c <= 0x2F ->
   transitions ParserTable_get State.CSI_Param c = State.CSI_Intermediate /\
   events ParserTable_get State.CSI_Param c = Action.Collect) /\
  (0x40 <= c <= 0x7E ->
   transitions ParserTable_get State.CSI_Param c = State.Ground /\
   events ParserTable_get State.CSI_Param c = Action.CSI_Dispatch).
Proof.
  cbn [transitions events ParserTable_get].
  unfold anywhere, rule, isExecuteChar, includes. cbn [first last].
  split; [| split; [| split]]; intros H.
  - apply isParamChar_spec in H. unfold isParamChar, includes. cbn [first last].
    destruct H as [H | H]; settle_comparisons; cbn; now split.
  - unfold isParamChar, includes. cbn [first last].
    destruct H as [H | H]; settle_comparisons; cbn; now split.
  - unfold isParamChar, includes. cbn [first last].
    settle_comparisons; cbn; now split.
  - unfold isParamChar, includes. cbn [first last].
    settle_comparisons; cbn; now split.
Qed.

(** [handleViaTables] returns when the current character is within the
    table. *)
Lemma handleViaTables_returns (table : ParserTable) m :
  0 <= currentChar m < width table -> exists m', handleViaTables table m = Returns tt m'.
Proof.
  intros Hin.
  destruct (handleViaTables table m) as [[] m'| |] eqn:E.
  - now exists m'.
  - apply handleViaTables_undefined_iff in E. tauto.
  - now apply fuel_free_handleViaTables in E.
Qed.

Lemma visit_returns (table : ParserTable) r m :
  match delivered r with Some c => 0 <= c < width table | None => True end ->
  exists m', visit table r m = Returns tt m'.
Proof.
  destruct r as [| c | c]; cbn [delivered visit]; intros Hin.
  - now exists m.
  - unfold bind, log, modify.
    destruct (logger_ m); apply handleViaTables_returns; exact Hin.
  - unfold bind, modify. apply handleViaTables_returns; exact Hin.
Qed.

Lemma dispatchAll_returns (table : ParserTable) rs : forall m,
  Forall (fun c => 0 <= c < width table) (codepoints rs) ->
  exists m', dispatchAll table rs m = Returns tt m'.
Proof.
  induction rs as [| r rs IH]; intros m Hin.
  - now exists m.
  - cbn [dispatchAll]. unfold bind at 1, modify. unfold bind at 1.
    cbn [codepoints] in Hin.
    destruct (visit_returns table r (set_currentChar_ 0 m)) as (m1 & ->).
    { destruct (delivered r); [now inversion Hin | exact I]. }
    apply IH. destruct (delivered r); [now inversion Hin | exact Hin].
Qed.

(** A fragment whose code points are all within the table is parsed to its
    end. *)
Lemma parseFragment_returns (table : ParserTable) s m :
  Forall (fun c => 0 <= c < width table)
         (codepoints (snd (decodeAll decode (utf8Decoder_ m) s))) ->
  exists m', parseFragment decode table s m = Returns tt m'.
Proof.
  intros Hin. rewrite parseFragment_dispatchAll.
  destruct (dispatchAll_returns table _ m Hin) as (m1 & ->).
  eexists. reflexivity.
Qed.


(** C2.  With the table of the spec, a code point of
    the "anywhere" rules takes [handleViaTables] from every state of the
    parser to its target: [Ground] for 0x18, 0x1A, 0x9C, 0x80-0x8F and
    0x91-0x97, [Escape] for 0x1B, [DCS_Entry] for 0x90, [SOS_PM_APC_String]
    for 0x98, 0x9E and 0x9F.  The call is [Leave] with the exit action of the
    state left ([OSC_End] for [OSC_String], [Unhook] for [DCS_PassThrough]),
    [Transition], the assignment, [Enter] with the entry action of the target
    ([Clear] for [Escape] and [DCS_Entry]), in that order. *)
Theorem handleViaTables_anywhere_rules m c t :
  state_ m <> State.Undefined ->
  currentChar m = c ->
  anywhere c = Some t ->
  handleViaTables ParserTable_get m
  = Returns tt
      (if actionHandler_ m
       then set_emitted
              (emitted m ++
               [(Leave, exit_events (state_ m), c); (Transition, Action.Ignore, c);
                (Enter, entry_events t, c)])
              (set_state_ t m)
       else set_state_ t m) /\
  handleViaTables ParserTable_get m
  = (invokeAction Leave (exit_events (state_ m)) ;;
     invokeAction Transition Action.Ignore ;;
     modify (set_state_ t) ;;
     invokeAction Enter (entry_events t)) m /\
  (forall c', anywhere c' = Some State.Ground <->
              c' = 0x18 \/ c' = 0x1A \/ c' = 0x9C \/ 0x80 <= c' <= 0x8F \/ 0x91 <= c' <= 0x97) /\
  (forall c', anywhere c' = Some State.Escape <-> c' = 0x1B) /\
  (forall c', anywhere c' = Some State.DCS_Entry <-> c' = 0x90) /\
  (forall c', anywhere c' = Some State.SOS_PM_APC_String <->
              c' = 0x98 \/ c' = 0x9E \/ c' = 0x9F) /\
  exit_events State.OSC_String = Action.OSC_End /\
  exit_events State.DCS_PassThrough = Action.Unhook /\
  entry_events State.Escape = Action.Clear /\
  entry_events State.DCS_Entry = Action.Clear.
Proof.
  intros Hs Hc Ha.
  split; [exact (handleViaTables_anywhere c t m Hs Hc Ha) |].
  split.
  - destruct (anywhere_in_table c t Ha) as [Hin Hnp].
    assert (Ht : transitions ParserTable_get (state_ m) c = t).
    { cbn. rewrite Ha. destruct (state_ m); [contradiction | reflexivity ..]. }
    assert (He : events ParserTable_get (state_ m) c = Action.Ignore).
    { cbn. rewrite Ha. destruct (state_ m); [contradiction | reflexivity ..]. }
    rewrite (handleViaTables_transition_chain ParserTable_get m t).
    + rewrite Hc, He. reflexivity.
    + rewrite Hc, (to_wchar_t_small c), Hnp by lia. apply andb_false_r.
    + rewrite Hc, subscript_get, Ht by exact Hin. reflexivity.
    + unfold anywhere in Ha.
      repeat match type of Ha with
             | (if ?b then _ else _) = _ => destruct b
             end; try discriminate Ha; injection Ha as <-; discriminate.
  - split; [intros c'; apply anywhere_spec |].
    split; [intros c'; apply anywhere_spec |].
    split; [intros c'; apply anywhere_spec |].
    split; [intros c'; apply anywhere_spec |].
    now repeat split.
Qed.

(** C1.  With the table of the spec, in [CSI_Param] a
    parameter character is answered with [Event/Param] and the state is
    kept; 0x3A and 0x3C-0x3F lead to [CSI_Ignore]; 0x20-0x2F lead to
    [CSI_Intermediate] with [Transition/Collect]; a final character
    0x40-0x7E leads to [Ground] with [Transition/CSI_Dispatch].  And a parser
    in [Ground] for which the decoder reports the bytes 1B 5B 31 3B 33 31 6D
    as their own code points ends in [Ground], with [Param] for each of the
    four parameter characters and one [CSI_Dispatch]. *)
Theorem table_CSI_Param_rules m c m0 :
  state_ m = State.CSI_Param ->
  actionHandler_ m = true ->
  currentChar m = c ->
  state_ m0 = State.Ground ->
  actionHandler_ m0 = true ->
  snd (decodeAll decode (utf8Decoder_ m0) [x1b; x5b; x31; x3b; x33; x31; x6d])
  = map utf8.Success [0x1B; 0x5B; 0x31; 0x3B; 0x33; 0x31; 0x6D] ->
  (isParamChar c = true ->
   handleViaTables ParserTable_get m
   = Returns tt (set_emitted (emitted m ++ [(Event, Action.Param, c)]) m)) /\
  (c = 0x3A \/ 0x3C <= c <= 0x3F ->
   handleViaTables ParserTable_get m
   = Returns tt
       (set_emitted
          (emitted m ++ [(Leave, Action.Ignore, c); (Transition, Action.Ignore, c);
                         (Enter, Action.Ignore, c)])
          (set_state_ State.CSI_Ignore m))) /\
  (0x20 <= c <= 0x2F ->
   handleViaTables ParserTable_get m
   = Returns tt
       (set_emitted
          (emitted m ++ [(Leave, Action.Ignore, c); (Transition, Action.Collect, c);
                         (Enter, Action.Ignore, c)])
          (set_state_ State.CSI_Intermediate m))) /\
  (0x40 <= c <= 0x7E ->
   handleViaTables ParserTable_get m
   = Returns tt
       (set_emitted
          (emitted m ++ [(Leave, Action.Ignore, c); (Transition, Action.CSI_Dispatch, c);
                         (Enter, Action.Ignore, c)])
          (set_state_ State.Ground m))) /\
  exists m',
    parseFragment decode ParserTable_get [x1b; x5b; x31; x3b; x33; x31; x6d] m0
    = Returns tt m' /\
    state_ m' = State.Ground /\
    emitted m'
    = emitted m0 ++
      [(Leave, Action.Ignore, 0x1B); (Transition, Action.Ignore, 0x1B);
       (Enter, Action.Clear, 0x1B);
       (Leave, Action.Ignore, 0x5B); (Transition, Action.Ignore, 0x5B);
       (Enter, Action.Clear, 0x5B);
       (Leave, Action.Ignore, 0x31); (Transition, Action.Param, 0x31);
       (Enter, Action.Ignore, 0x31);
       (Event, Action.Param, 0x3B); (Event, Action.Param, 0x33);
       (Event, Action.Param, 0x31);
       (Leave, Action.Ignore, 0x6D); (Transition, Action.CSI_Dispatch, 0x6D);
       (Enter, Action.Ignore, 0x6D)].
Proof.
  intros Hs Hh Hc Hs0 Hh0 Hrs.
  assert (Hfast : State.eqb (state_ m) State.Ground
                  && isPrintChar (to_wchar_t (currentChar m)) = false)
    by (rewrite Hs; reflexivity).
  destruct (CSI_Param_row c) as (Rparam & Rignore & Rcollect & Rfinal).
  assert (Htrans : forall t a,
            0 <= c < 0xA0 ->
            transitions ParserTable_get State.CSI_Param c = t ->
            events ParserTable_get State.CSI_Param c = a ->
            t <> State.Undefined ->
            handleViaTables ParserTable_get m
            = Returns tt
                (set_emitted
                   (emitted m ++ [(Leave, Action.Ignore, c); (Transition, a, c);
                                  (Enter, entry_events t, c)])
                   (set_state_ t m))).
  { intros t a Hin Ht Ha Hdef.
    rewrite (handleViaTables_transition ParserTable_get m t Hfast); [| | exact Hdef].
    - rewrite Hh, Hs, Hc, Ha. reflexivity.
    - rewrite Hs, Hc, subscript_get, Ht by exact Hin. reflexivity. }
  split; [| split; [| split; [| split]]].
  - intros H. destruct (Rparam H) as [Ht Ha].
    apply isParamChar_spec in H.
    rewrite (handleViaTables_event ParserTable_get m Action.Param Hfast).
    + unfold invokeAction. now rewrite Hh, Hc.
    + rewrite Hs, Hc, subscript_get, Ht by lia. reflexivity.
    + now rewrite Hs, Hc.
    + discriminate.
  - intros H. destruct (Rignore H) as [Ht Ha].
    apply (Htrans State.CSI_Ignore Action.Ignore); [lia | assumption .. | discriminate].
  - intros H. destruct (Rcollect H) as [Ht Ha].
    apply (Htrans State.CSI_Intermediate Action.Collect);
      [lia | assumption .. | discriminate].
  - intros H. destruct (Rfinal H) as [Ht Ha].
    apply (Htrans State.Ground Action.CSI_Dispatch); [lia | assumption .. | discriminate].
  - rewrite parseFragment_dispatchAll, Hrs.
    destruct m0 as [st d0 c0 b0 e0 h l tl fr em lg tr].
    cbn [state_ actionHandler_] in Hs0, Hh0. subst st h.
    run_outcomes.
    eexists. split; [reflexivity |]. split; reflexivity.
Qed.

(** C3.  With the entry and exit actions of the spec, over every fragment
    that [parseFragment] parses to its end, and so over every prefix of the
    input, the calls [Enter(OSC_Start)] exceed the calls [Leave(OSC_End)] by
    one while the parser is in [OSC_String] and by none in any other state,
    [Ground] among them; likewise [Enter(Hook)] and [Leave(Unhook)] with
    [DCS_PassThrough].  Every entry thus has its one exit before the parser
    is anywhere else.  A fragment is parsed to its end when its code points
    are within the table (below 0xA0). *)
Theorem parseFragment_pairs_strings s m :
  actionHandler_ m = true ->
  balanced Action.OSC_Start Action.OSC_End State.OSC_String m ->
  balanced Action.Hook Action.Unhook State.DCS_PassThrough m ->
  let paired m' :=
    count_calls Enter Action.OSC_Start (emitted m')
    = (count_calls Leave Action.OSC_End (emitted m')
       + (if State.eqb (state_ m') State.OSC_String then 1 else 0))%nat /\
    count_calls Enter Action.Hook (emitted m')
    = (count_calls Leave Action.Unhook (emitted m')
       + (if State.eqb (state_ m') State.DCS_PassThrough then 1 else 0))%nat in
  (forall m', parseFragment decode ParserTable_get s m = Returns tt m' -> paired m') /\
  (Forall (fun c => 0 <= c < 0xA0) (codepoints (snd (decodeAll decode (utf8Decoder_ m) s))) ->
   exists m', parseFragment decode ParserTable_get s m = Returns tt m' /\ paired m').
Proof.
  intros Hh Hosc Hdcs paired.
  assert (Hpaired : forall m', parseFragment decode ParserTable_get s m = Returns tt m' ->
                               paired m').
  { intros m' Hrun.
    destruct (ParserTable_get_pairs_strings decode s m m' Hh Hosc Hdcs Hrun) as [Bosc Bdcs].
    unfold balanced, open_calls in Bosc, Bdcs. unfold paired.
    split.
    - destruct (State.eqb (state_ m') State.OSC_String); lia.
    - destruct (State.eqb (state_ m') State.DCS_PassThrough); lia. }
  split; [exact Hpaired |].
  intros Hin. destruct (parseFragment_returns ParserTable_get s m Hin) as (m' & Hrun).
  exists m'. split; [exact Hrun | exact (Hpaired m' Hrun)].
Qed.

(** ** Invalid UTF-8 *)

Lemma respects_agree {A : Type} f (x : @M DecoderState A) m m' :
  respects f x -> f m = f m' -> outcome_map f (x m) = outcome_map f (x m').
Proof.
  intros Hr Hf. now rewrite (Hr m), (Hr m'), Hf.
Qed.

Lemma visit_as_Success (table : ParserTable) r m m' :
  forget_log m = forget_log m' ->
  outcome_map forget_log (visit table r m)
  = outcome_map forget_log (visit table (as_Success r) m').
Proof.
  intros Hf.
  pose proof (fun r0 => respects_visit table (@forget_log DecoderState) r0
                          (or_intror (or_introl eq_refl))) as Hr.
  destruct r as [| c | c]; cbn [as_Success];
    try (apply respects_agree; [apply Hr | exact Hf]).
  change (visit table (utf8.Invalid c) m)
    with ((log InvalidUTF8 ;; visit table (utf8.Success c)) m).
  unfold bind, log.
  destruct (logger_ m); (apply respects_agree; [apply Hr |]); [| exact Hf].
  rewrite <- Hf. reflexivity.
Qed.

Lemma dispatchAll_as_Success (table : ParserTable) rs : forall m m',
  forget_log m = forget_log m' ->
  outcome_map forget_log (dispatchAll table rs m)
  = outcome_map forget_log (dispatchAll table (map as_Success rs) m').
Proof.
  induction rs as [| r rs IH]; intros m m' Hf.
  - cbn. now rewrite Hf.
  - cbn [map dispatchAll]. unfold bind, modify.
    assert (Hf0 : forget_log (set_currentChar_ 0 m) = forget_log (set_currentChar_ 0 m'))
      by (destruct m, m'; cbn in *; inversion Hf; subst; reflexivity).
    pose proof (visit_as_Success table r _ _ Hf0) as Hv.
    destruct (visit table r (set_currentChar_ 0 m)) as [[] m1| |];
      destruct (visit table (as_Success r) (set_currentChar_ 0 m')) as [[] m1'| |];
      cbn [outcome_map] in Hv; try discriminate Hv; try reflexivity.
    apply IH. exact (f_equal (fun o => machine_after o (forget_log m1)) Hv).
Qed.

Lemma decodeAll_reporting_Success s : forall d,
  decodeAll (reporting_Success decode) d s
  = (fst (decodeAll decode d s), map as_Success (snd (decodeAll decode d s))).
Proof.
  induction s as [| b s IH]; intros d; [reflexivity |].
  cbn [decodeAll]. unfold reporting_Success at 1.
  destruct (decode d b) as [d1 r]. rewrite IH.
  destruct (decodeAll decode d1 s) as [d2 rs]. reflexivity.
Qed.

(** C8 (as amended).  The replacement character of an [Invalid] report goes
    through the state machine as a decoded code point does: [visit] logs
    "Invalid UTF8!" and goes on as for [Success], so a parser whose decoder
    reports [Success] with the replacement character wherever [decode]
    reports [Invalid] has the same outcome on every fragment, up to the log.
    The byte that draws the report is consumed with it.  For a decoder that
    answers the bytes 41 C3 28 42 as UTF-8 has it (41 decoded, the lead byte
    C3 [Incomplete], [Invalid] with U+FFFD on 28, 42 decoded), a parser in
    [Ground] with an action handler returns, stays in [Ground], emits
    Print(U+41), Print(U+FFFD), Print(U+42), and logs the diagnostic once if
    it has a logger. *)
Theorem invalid_utf8_replacement_processed (table : ParserTable) m :
  state_ m = State.Ground ->
  actionHandler_ m = true ->
  snd (decodeAll decode (utf8Decoder_ m) [x41; xc3; x28; x42])
  = [utf8.Success 0x41; utf8.Incomplete; utf8.Invalid 0xFFFD; utf8.Success 0x42] ->
  (forall r m0,
     visit table (utf8.Invalid r) m0
     = (log InvalidUTF8 ;; visit table (utf8.Success r)) m0) /\
  (forall s m0,
     outcome_map forget_log (parseFragment decode table s m0)
     = outcome_map forget_log (parseFragment (reporting_Success decode) table s m0)) /\
  exists m',
    parseFragment decode table [x41; xc3; x28; x42] m = Returns tt m' /\
    state_ m' = State.Ground /\
    begin_ m' = 4%nat /\
    emitted m'
    = emitted m ++ [(Event, Action.Print, 0x41); (Event, Action.Print, 0xFFFD);
                    (Event, Action.Print, 0x42)] /\
    logged m' = logged m ++ (if logger_ m then [InvalidUTF8] else []).
Proof.
  intros Hs Hh Hrs.
  split; [reflexivity |]. split.
  - intros s m0.
    rewrite !parseFragment_dispatchAll, decodeAll_reporting_Success. cbn [fst snd].
    pose proof (dispatchAll_as_Success table (snd (decodeAll decode (utf8Decoder_ m0) s))
                  m0 m0 eq_refl) as H.
    destruct (dispatchAll table (snd (decodeAll decode (utf8Decoder_ m0) s)) m0)
      as [[] m1| |];
      destruct (dispatchAll table
                  (map as_Success (snd (decodeAll decode (utf8Decoder_ m0) s))) m0)
      as [[] m1'| |];
      cbn [outcome_map] in H |- *; try discriminate H; try reflexivity.
    apply (f_equal (fun o => machine_after o (forget_log m1))) in H. cbn [machine_after] in H.
    f_equal. destruct m1, m1'. cbn in H |- *. inversion H; subst; reflexivity.
  - rewrite parseFragment_dispatchAll, Hrs.
    destruct m as [st d c b e h l tl fr em lg tr].
    cbn [state_ actionHandler_] in Hs, Hh. subst st h.
    destruct l; run_outcomes;
      (eexists; split; [reflexivity |]); repeat split; now rewrite ?app_nil_r.
Qed.

(** ** An empty action handler *)

(** C10 (the code as written).  A parser constructed without an action
    handler does not process every byte sequence to its end: on the bytes
    1B E2 82 AC, decoded as ESC, [Incomplete], [Incomplete] and U+20AC, the
    fourth turn of the loop reads [transitions] outside its bounds, as it
    does with a handler.  Up to there the cursor has advanced three times,
    the parser is in [Escape], and no call has been made. *)
Theorem parseFragment_null_handler_undefined_on_ESC_euro :
  let script := [utf8.Success 0x1B; utf8.Incomplete; utf8.Incomplete; utf8.Success 0x20AC] in
  parseFragment scripted ParserTable_get [x1b; xe2; x82; xac] (construct false false script)
  = UndefinedBehaviour /\
  parseFragment scripted ParserTable_get [x1b; xe2; x82; xac] (construct true false script)
  = UndefinedBehaviour /\
  cursor_after
    (parseFragment scripted ParserTable_get [x1b; xe2; x82] (construct false false script))
  = Some (3%nat, 3%nat) /\
  state_after
    (parseFragment scripted ParserTable_get [x1b; xe2; x82] (construct false false script))
  = Some State.Escape /\
  emitted_after
    (parseFragment scripted ParserTable_get [x1b; xe2; x82] (construct false false script))
  = Some [].
Proof. repeat split; vm_compute; reflexivity. Qed.

End TablePath.

(** The decoder of a parser that reads "ESC [ 1 ; 3 1 m", as a script. *)
Lemma table_CSI_Param_rules_witness :
  let m := set_currentChar_ 0x3B (set_state_ State.CSI_Param (construct true false (@nil utf8.Result))) in
  let c := 0x3B in
  let m0 := construct true false (map utf8.Success [0x1B; 0x5B; 0x31; 0x3B; 0x33; 0x31; 0x6D]) in
  (isParamChar c = true ->
   handleViaTables ParserTable_get m
   = Returns tt (set_emitted (emitted m ++ [(Event, Action.Param, c)]) m)) /\
  (c = 0x3A \/ 0x3C <= c <= 0x3F ->
   handleViaTables ParserTable_get m
   = Returns tt
       (set_emitted
          (emitted m ++ [(Leave, Action.Ignore, c); (Transition, Action.Ignore, c);
                         (Enter, Action.Ignore, c)])
          (set_state_ State.CSI_Ignore m))) /\
  (0x20 <= c <= 0x2F ->
   handleViaTables ParserTable_get m
   = Returns tt
       (set_emitted
          (emitted m ++ [(Leave, Action.Ignore, c); (Transition, Action.Collect, c);
                         (Enter, Action.Ignore, c)])
          (set_state_ State.CSI_Intermediate m))) /\
  (0x40 <= c <= 0x7E ->
   handleViaTables ParserTable_get m
   = Returns tt
       (set_emitted
          (emitted m ++ [(Leave, Action.Ignore, c); (Transition, Action.CSI_Dispatch, c);
                         (Enter, Action.Ignore, c)])
          (set_state_ State.Ground m))) /\
  exists m',
    parseFragment scripted ParserTable_get [x1b; x5b; x31; x3b; x33; x31; x6d] m0
    = Returns tt m' /\
    state_ m' = State.Ground /\
    emitted m'
    = emitted m0 ++
      [(Leave, Action.Ignore, 0x1B); (Transition, Action.Ignore, 0x1B);
       (Enter, Action.Clear, 0x1B);
       (Leave, Action.Ignore, 0x5B); (Transition, Action.Ignore, 0x5B);
       (Enter, Action.Clear, 0x5B);
       (Leave, Action.Ignore, 0x31); (Transition, Action.Param, 0x31);
       (Enter, Action.Ignore, 0x31);
       (Event, Action.Param, 0x3B); (Event, Action.Param, 0x33);
       (Event, Action.Param, 0x31);
       (Leave, Action.Ignore, 0x6D); (Transition, Action.CSI_Dispatch, 0x6D);
       (Enter, Action.Ignore, 0x6D)].
Proof.
  apply (table_CSI_Param_rules scripted
           (set_currentChar_ 0x3B (set_state_ State.CSI_Param (construct true false (@nil utf8.Result))))
           0x3B
           (construct true false
              (map utf8.Success [0x1B; 0x5B; 0x31; 0x3B; 0x33; 0x31; 0x6D])));
    reflexivity.
Defined.

(** ST (0x9C) in [DCS_PassThrough]: the string ends with [Unhook]. *)
Lemma handleViaTables_anywhere_rules_witness :
  let m := set_currentChar_ 0x9C
             (set_state_ State.DCS_PassThrough (construct true false tt)) in
  handleViaTables ParserTable_get m
  = Returns tt
      (set_emitted
         [(Leave, Action.Unhook, 0x9C); (Transition, Action.Ignore, 0x9C);
          (Enter, Action.Ignore, 0x9C)]
         (set_state_ State.Ground m)).
Proof.
  apply (handleViaTables_anywhere_rules
           (set_currentChar_ 0x9C
              (set_state_ State.DCS_PassThrough (construct true false tt)))
           0x9C State.Ground);
    [discriminate | reflexivity | reflexivity].
Defined.

(** "ESC ] 0 ; X ESC \": one [OSC_Start], one [OSC_End], back in [Ground]. *)
Lemma parseFragment_pairs_strings_witness :
  let m := construct true false
             (map utf8.Success [0x1B; 0x5D; 0x30; 0x3B; 0x58; 0x1B; 0x5C]) in
  exists m',
    parseFragment scripted ParserTable_get [x1b; x5d; x30; x3b; x58; x1b; x5c] m
    = Returns tt m' /\
    count_calls Enter Action.OSC_Start (emitted m')
    = (count_calls Leave Action.OSC_End (emitted m')
       + (if State.eqb (state_ m') State.OSC_String then 1 else 0))%nat /\
    count_calls Enter Action.Hook (emitted m')
    = (count_calls Leave Action.Unhook (emitted m')
       + (if State.eqb (state_ m') State.DCS_PassThrough then 1 else 0))%nat.
Proof.
  destruct (parseFragment_pairs_strings scripted
              [x1b; x5d; x30; x3b; x58; x1b; x5c]
              (construct true false
                 (map utf8.Success [0x1B; 0x5D; 0x30; 0x3B; 0x58; 0x1B; 0x5C])))
    as [_ Hruns]; [reflexivity | reflexivity | reflexivity |].
  apply Hruns. vm_compute. repeat constructor; discriminate.
Defined.


(** The outcomes that UTF-8 fixes for 41 C3 28 42, as a script, and a parser
    with a logger. *)
Lemma invalid_utf8_replacement_processed_witness :
  let script := [utf8.Success 0x41; utf8.Incomplete; utf8.Invalid 0xFFFD; utf8.Success 0x42] in
  exists m',
    parseFragment scripted ParserTable_get [x41; xc3; x28; x42] (construct true true script)
    = Returns tt m' /\
    state_ m' = State.Ground /\
    begin_ m' = 4%nat /\
    emitted m'
    = [(Event, Action.Print, 0x41); (Event, Action.Print, 0xFFFD);
       (Event, Action.Print, 0x42)] /\
    logged m' = [InvalidUTF8].
Proof.
  apply (invalid_utf8_replacement_processed scripted ParserTable_get
           (construct true true
              [utf8.Success 0x41; utf8.Incomplete; utf8.Invalid 0xFFFD; utf8.Success 0x42]));
    reflexivity.
Defined.

(** Scenario S6 with the outcomes that UTF-8 fixes for its bytes: on
    41 C3 28 42 the byte 28 is consumed by the [Invalid] report, and no
    Print(U+28) is emitted. *)
Lemma S6_emits_no_Print_of_0x28 :
  let o := parseFragment scripted ParserTable_get [x41; xc3; x28; x42]
             (construct true true
                [utf8.Success 0x41; utf8.Incomplete; utf8.Invalid 0xFFFD;
                 utf8.Success 0x42]) in
  emitted_after o
  = Some [(Event, Action.Print, 0x41); (Event, Action.Print, 0xFFFD);
          (Event, Action.Print, 0x42)] /\
  emitted_after o
  <> Some [(Event, Action.Print, 0x41); (Event, Action.Print, 0xFFFD);
           (Event, Action.Print, 0x28); (Event, Action.Print, 0x42)] /\
  logged_after o = Some [InvalidUTF8].
Proof.
  split; [vm_compute; reflexivity |]. split; [| vm_compute; reflexivity].
  vm_compute. discriminate.
Qed.
